(** * xmltree: the escape codec and the tree encoder of marshal.go

    A shallow embedding of [marshal.go] and the properties of its
    escape codec, scope diffing and recursive encoder. *)

From Stdlib Require Import String Ascii List Arith Lia Bool.
From stdpp Require Import base tactics option list strings gmap.

Open Scope string_scope.
Open Scope list_scope.

(** ** Byte strings

    A Go [string] and a [[]byte] are sequences of bytes; both are embedded
    as [string]. *)

(** The byte 0x22, written apart because the templates and the mapping table
    use it inside literals. *)
Definition dquote : string := String (ascii_of_nat 34) EmptyString.

(** [strings.Replace(s, old, new, -1)] for a non-empty [old], which is how
    every call of this file uses it: scanning from the left, each
    occurrence of [old] that does not overlap the previous one is replaced
    by [new].  [skip] counts the bytes of the occurrence just replaced that
    are still to be stepped over. *)
Fixpoint replaceFrom (old new : string) (skip : nat) (s : string) : string :=
  match s with
  | EmptyString => EmptyString
  | String c rest =>
      match skip with
      | S k => replaceFrom old new k rest
      | O =>
          if String.prefix old s
          then new +:+ replaceFrom old new (String.length old - 1) rest
          else String c (replaceFrom old new 0 rest)
      end
  end.

Definition Replace (s old new : string) : string := replaceFrom old new 0 s.

(** ** The escape codec *)

Definition error : Type := string.

Record vContentMapping : Type := mkMapping {
  Decoded : string;
  Encoded : string
}.

Definition vContentMappings : list vContentMapping :=
  [ mkMapping "&" "&amp;";
    mkMapping "<" "&lt;";
    mkMapping ">" "&gt;";
    mkMapping dquote "&quot;" ].

(** The body of the [for _, mapping := range vContentMappings] loops. *)
Definition encodeAll (s : string) : string :=
  fold_left (fun acc m => Replace acc (Decoded m) (Encoded m)) vContentMappings s.

Definition decodeAll (s : string) : string :=
  fold_left (fun acc m => Replace acc (Encoded m) (Decoded m)) vContentMappings s.

Definition xmlEncodeString (strToEncode : string) : string * option error :=
  (encodeAll strToEncode, None).

Definition xmlDecodeString (strToDecode : string) : string * option error :=
  (decodeAll strToDecode, None).

(** ** The data model

    [xml.Name], [xml.Attr] and [xml.StartElement] of encoding/xml, and the
    [Scope] and [Element] this file reads ([scope.ns], [el.Content],
    [el.Children], the embedded [StartElement] and [Scope]).

    Elements and the backing arrays of attribute slices live in a heap, so
    that pointer identity ([visited[el]]), sharing and in-place writes are
    those of the Go code.  An address is an index into the heap. *)

Abbreviation addr := nat.

Record xmlName : Type := mkName {
  Space : string;
  Local : string
}.

Record xmlAttr : Type := mkAttr {
  AName : xmlName;
  Value : string
}.

(** A [[]xml.Attr] value: [None] is the nil slice, [Some a] refers to the
    backing array stored at [a], which the slice spans. *)
Definition attrSlice : Type := option addr.

Record xmlStartElement : Type := mkStart {
  Name : xmlName;
  Attr : attrSlice
}.

(** Modelled from the spec: the declaration of [Scope] is in another file
    of the package.  It is the ordered list of namespace declarations of
    section 3, which [marshal.go] reads as [scope.ns], a [[]xml.Name] whose
    [Local] is the prefix and whose [Space] is the URI. *)
Record Scope : Type := mkScope {
  ns : list xmlName
}.

(** Modelled from the spec: the declaration of [Element] is in another file
    of the package.  Its fields are those of section 3 as [marshal.go] reads
    them: the embedded [xml.StartElement] and [Scope], [Content] and
    [Children].  [Content] is a [[]byte]: [None] is the nil slice,
    [Some ""] the empty slice that is not nil.  [Children] is a
    [[]Element]: the list holds the addresses [&el.Children[i]] of its
    cells. *)
Record Element : Type := mkElement {
  StartElement : xmlStartElement;
  ElScope : Scope;
  Content : option string;
  Children : list addr
}.

#[global] Instance xmlName_eq_dec : EqDecision xmlName.
Proof. solve_decision. Defined.

(** [&Element{}] *)
Definition zeroElement : Element :=
  mkElement (mkStart (mkName "" "") None) (mkScope []) None [].

Definition zeroAttr : xmlAttr := mkAttr (mkName "" "") "".

(** [len(b)] and [string(b)] of a [[]byte] *)
Definition lenBytes (b : option string) : nat :=
  match b with Some s => String.length s | None => 0 end.

Definition stringOfBytes (b : option string) : string :=
  match b with Some s => s | None => "" end.

(** Field assignments *)
Definition setName (n : xmlName) (E : Element) : Element :=
  mkElement (mkStart n (Attr (StartElement E))) (ElScope E) (Content E) (Children E).
Definition setAttr (a : attrSlice) (E : Element) : Element :=
  mkElement (mkStart (Name (StartElement E)) a) (ElScope E) (Content E) (Children E).
Definition setStartElement (se : xmlStartElement) (E : Element) : Element :=
  mkElement se (ElScope E) (Content E) (Children E).
Definition setScope (sc : Scope) (E : Element) : Element :=
  mkElement (StartElement E) sc (Content E) (Children E).
Definition setContent (c : option string) (E : Element) : Element :=
  mkElement (StartElement E) (ElScope E) c (Children E).
Definition setChildren (cs : list addr) (E : Element) : Element :=
  mkElement (StartElement E) (ElScope E) (Content E) cs.
Definition setValue (v : string) (a : xmlAttr) : xmlAttr := mkAttr (AName a) v.

Record Heap : Type := mkHeap {
  elems : list Element;
  arrays : list (list xmlAttr)
}.

(** The state an encoding runs in: the heap, the [visited] map (a set of
    element pointers, shared by all the calls of one encoding) and the
    state of the [io.Writer]. *)
Record State (W : Type) : Type := mkState {
  heap : Heap;
  visited : gset addr;
  sink : W
}.
Arguments mkState {W} _ _ _.
Arguments heap {W} _.
Arguments visited {W} _.
Arguments sink {W} _.

(** A computation returns, panics (a nil or dangling pointer, an index out
    of range, an explicit [panic]) or runs out of fuel. *)
Inductive outcome (S A : Type) : Type :=
| Ret (a : A) (s : S)
| Panic
| Timeout.
Arguments Ret {S A} _ _.
Arguments Panic {S A}.
Arguments Timeout {S A}.

Definition M (W A : Type) : Type := State W -> outcome (State W) A.

Definition ret {W A} (a : A) : M W A := fun s => Ret a s.

Definition bind {W A B} (m : M W A) (k : A -> M W B) : M W B :=
  fun s => match m s with
           | Ret a s' => k a s'
           | Panic => Panic
           | Timeout => Timeout
           end.

Notation "'do' x <- c ; k" := (bind c (fun x => k))
  (at level 10, x name, c at level 100, k at level 200).
Notation "c ;; k" := (bind c (fun _ => k))
  (at level 100, k at level 200, right associativity).

Definition panic {W A} : M W A := fun _ => Panic.
Definition timeout {W A} : M W A := fun _ => Timeout.

(** [for i := 0; i < n; i++ { body i }] *)
Fixpoint forRange {W} (i n : nat) (body : nat -> M W unit) : M W unit :=
  match n with
  | O => ret tt
  | S n' => body i ;; forRange (S i) n' body
  end.

(** *** Heap accesses *)

Definition loadElem {W} (p : addr) : M W Element :=
  fun s => match elems (heap s) !! p with
           | Some E => Ret E s
           | None => Panic
           end.

Definition modifyElem {W} (p : addr) (f : Element -> Element) : M W unit :=
  fun s => match elems (heap s) !! p with
           | Some E =>
               Ret tt (mkState (mkHeap (<[p := f E]> (elems (heap s))) (arrays (heap s)))
                               (visited s) (sink s))
           | None => Panic
           end.

Definition newElement {W} : M W addr :=
  fun s => Ret (length (elems (heap s)))
               (mkState (mkHeap (elems (heap s) ++ [zeroElement]) (arrays (heap s)))
                        (visited s) (sink s)).

(** [make([]xml.Attr, n)] *)
Definition makeAttrs {W} (n : nat) : M W attrSlice :=
  fun s => Ret (Some (length (arrays (heap s))))
               (mkState (mkHeap (elems (heap s)) (arrays (heap s) ++ [replicate n zeroAttr]))
                        (visited s) (sink s)).

Definition lenAttrs {W} (sl : attrSlice) : M W nat :=
  match sl with
  | None => ret 0
  | Some a => fun s => match arrays (heap s) !! a with
                       | Some arr => Ret (length arr) s
                       | None => Panic
                       end
  end.

(** [sl[i]] as a value *)
Definition indexAttr {W} (sl : attrSlice) (i : nat) : M W xmlAttr :=
  match sl with
  | None => panic
  | Some a => fun s => match arrays (heap s) !! a with
                       | Some arr => match arr !! i with
                                     | Some x => Ret x s
                                     | None => Panic
                                     end
                       | None => Panic
                       end
  end.

(** [sl[i] = f sl[i]], in place *)
Definition modifyAttr {W} (sl : attrSlice) (i : nat) (f : xmlAttr -> xmlAttr) : M W unit :=
  match sl with
  | None => panic
  | Some a => fun s => match arrays (heap s) !! a with
                       | Some arr =>
                           match arr !! i with
                           | Some x =>
                               Ret tt (mkState (mkHeap (elems (heap s))
                                                  (<[a := <[i := f x]> arr]> (arrays (heap s))))
                                               (visited s) (sink s))
                           | None => Panic
                           end
                       | None => Panic
                       end
  end.

(** The elements of a slice, as [range] reads them *)
Definition rangeAttrs {W} (sl : attrSlice) : M W (list xmlAttr) :=
  match sl with
  | None => ret []
  | Some a => fun s => match arrays (heap s) !! a with
                       | Some arr => Ret arr s
                       | None => Panic
                       end
  end.

(** *** The [visited] map *)

Definition lenVisited {W} : M W nat := fun s => Ret (size (visited s)) s.

Definition isVisited {W} (el : addr) : M W bool :=
  fun s => Ret (bool_decide (el ∈ visited s)) s.

Definition markVisited {W} (el : addr) : M W unit :=
  fun s => Ret tt (mkState (heap s) ({[el]} ∪ visited s) (sink s)).

Definition deleteVisited {W} (el : addr) : M W unit :=
  fun s => Ret tt (mkState (heap s) (visited s ∖ {[el]}) (sink s)).

(** [make(map[*Element]struct{})] *)
Definition newVisited : gset addr := ∅.

(** ** Scope diffing *)

(** The loop of [diffScope] on the two [ns] slices: the fronts are dropped
    while both slices are non-empty and their first entries are equal. *)
Fixpoint diffNs (parentNs childNs : list xmlName) : list xmlName :=
  match parentNs, childNs with
  | p :: parentNs', c :: childNs' =>
      if decide (c = p) then diffNs parentNs' childNs' else childNs
  | _, _ => childNs
  end.

Definition diffScope {W} (parent : option addr) (child : addr) : M W Scope :=
  match parent with
  | None => do C <- loadElem child; ret (ElScope C)
  | Some p =>
      do C <- loadElem child;
      do P <- loadElem p;
      ret (mkScope (diffNs (ns (ElScope P)) (ns (ElScope C))))
  end.

(** ** The tag templates *)

(** What the ["start"] template prints for one attribute and for one
    namespace declaration: one string per text node and per action, in
    order. *)
Definition attrChunks (qname : xmlName -> string) (a : xmlAttr) : list string :=
  [" "; qname (AName a); "=" +:+ dquote; Value a; dquote].

Definition nsChunks (n : xmlName) : list string :=
  [" xmlns"]
    ++ (if decide (Local n = "") then [] else [":"; Local n])
    ++ ["=" +:+ dquote; Space n; dquote].

(** [{{if or .Children .Content}}>{{else}} />{{end}}]: a slice is true when
    its length is not zero. *)
Definition closeOfStart (children : list addr) (content : option string) : string :=
  if negb (Nat.eqb (length children) 0) || negb (Nat.eqb (lenBytes content) 0)
  then ">" else " />".

Definition startChunks (qname : xmlName -> string) (name : xmlName)
    (attrs : list xmlAttr) (NS : list xmlName)
    (children : list addr) (content : option string) : list string :=
  ["<"; qname name]
    ++ concat (map (attrChunks qname) attrs)
    ++ concat (map nsChunks NS)
    ++ [closeOfStart children content].

Definition endChunks (qname : xmlName -> string) (name : xmlName) : list string :=
  ["</"; qname name; ">"].

Record encoder : Type := mkEncoder {
  prefix : string;
  indent : string;
  pretty : bool
}.

Definition newline : string := String (ascii_of_nat 10) EmptyString.

Section Encoder.

(** The [io.Writer] the encoder writes to: a state and [Write], which
    returns the state after the call and the error of the call. *)
Context {W : Type}.
Variable Write : W -> string -> W * option error.

(** [Scope.Prefix], which gives the qualified name of a tag or of an
    attribute in a scope, and the constant [recursionLimit] are declared
    in another file of the package: they are parameters here. *)
Variable Prefix : Scope -> xmlName -> string.
Variable recursionLimit : nat.

(** [e.w.Write(p)] and [io.WriteString(e.w, s)]: one call of [Write] *)
Definition write (p : string) : M W (option error) :=
  fun s => let (w', err) := Write (sink s) p in
           Ret err (mkState (heap s) (visited s) w').

(** A template execution writes its chunks one at a time and stops at
    the first error of the writer, which it returns. *)
Fixpoint emit (chunks : list string) : M W (option error) :=
  match chunks with
  | [] => ret None
  | c :: chunks' =>
      do err <- write c;
      match err with
      | Some x => ret (Some x)
      | None => emit chunks'
      end
  end.

(** [tagTmpl.ExecuteTemplate(e.w, "start", tag)], [tag] being the struct
    of the element pointer [tagEl] and the slice [NS] *)
Definition executeStart (tagEl : addr) (NS : list xmlName) : M W (option error) :=
  do T <- loadElem tagEl;
  do attrs <- rangeAttrs (Attr (StartElement T));
  emit (startChunks (Prefix (ElScope T)) (Name (StartElement T)) attrs NS
                    (Children T) (Content T)).

(** [tagTmpl.ExecuteTemplate(e.w, "end", el)] *)
Definition executeEnd (el : addr) : M W (option error) :=
  do E <- loadElem el;
  emit (endChunks (Prefix (ElScope E)) (Name (StartElement E))).

(** The loop of [encodeOpenTag] that escapes the attribute values held
    in the slice [attrs], from index [i] for [k] iterations *)
Fixpoint escapeAttrs (attrs : attrSlice) (i k : nat) : M W (option error) :=
  match k with
  | O => ret None
  | S k' =>
      do x <- indexAttr attrs i;
      let (mStr, mErr) := xmlEncodeString (Value x) in
      match mErr with
      | Some y => ret (Some y)
      | None => modifyAttr attrs i (setValue mStr) ;; escapeAttrs attrs (S i) k'
      end
  end.

Definition encodeOpenTag (e : encoder) (el : addr) (scope : Scope) (depth : nat)
  : M W (option error) :=
  (if pretty e
   then forRange 0 depth (fun _ => write (indent e) ;; ret tt)
   else ret tt) ;;
  do elCopy <- newElement;
  modifyElem elCopy (setStartElement (mkStart (mkName "" "") None)) ;;
  (do E <- loadElem el; modifyElem elCopy (setName (Name (StartElement E)))) ;;
  do n <- (do E <- loadElem el; lenAttrs (Attr (StartElement E)));
  (do a <- makeAttrs n; modifyElem elCopy (setAttr a)) ;;
  forRange 0 n (fun i =>
    do E <- loadElem el;
    do x <- indexAttr (Attr (StartElement E)) i;
    do C <- loadElem elCopy;
    modifyAttr (Attr (StartElement C)) i (fun _ => x)) ;;
  (do E <- loadElem el; modifyElem elCopy (setScope (ElScope E))) ;;
  do E <- loadElem el;
  let (mStr, mErr) := xmlEncodeString (stringOfBytes (Content E)) in
  match mErr with
  | Some x => ret (Some x)
  | None =>
      modifyElem elCopy (setContent (Some mStr)) ;;
      (do E <- loadElem el; modifyElem elCopy (setChildren (Children E))) ;;
      do C <- loadElem elCopy;
      let attrs := Attr (StartElement C) in
      do m <- lenAttrs attrs;
      do err <- escapeAttrs attrs 0 m;
      match err with
      | Some y => ret (Some y)
      | None =>
          modifyElem elCopy (setAttr attrs) ;;
          do err <- executeStart elCopy (ns scope);
          match err with
          | Some y => ret (Some y)
          | None =>
              (if pretty e
               then do E <- loadElem el;
                    if negb (Nat.eqb (length (Children E)) 0)
                       || Nat.eqb (lenBytes (Content E)) 0
                    then write newline ;; ret tt
                    else ret tt
               else ret tt) ;;
              ret None
          end
      end
  end.

Definition encodeCloseTag (e : encoder) (el : addr) (depth : nat) : M W (option error) :=
  (if pretty e
   then forRange 0 depth (fun _ =>
          do E <- loadElem el;
          if negb (Nat.eqb (length (Children E)) 0)
          then write (indent e) ;; ret tt
          else ret tt)
   else ret tt) ;;
  do err <- executeEnd el;
  match err with
  | Some y => ret (Some y)
  | None =>
      (if pretty e then write newline ;; ret tt else ret tt) ;;
      ret None
  end.

(** The loop over [el.Children] of [encode], from index [i] for [k]
    iterations; [enc] is the recursive call. *)
Fixpoint encodeChildren (enc : addr -> option addr -> M W (option error))
    (el : addr) (i k : nat) : M W (option error) :=
  match k with
  | O => ret None
  | S k' =>
      markVisited el ;;
      do E <- loadElem el;
      match Children E !! i with
      | None => panic
      | Some child =>
          do err <- enc child (Some el);
          match err with
          | Some y => ret (Some y)
          | None => deleteVisited el ;; encodeChildren enc el (S i) k'
          end
      end
  end.

Fixpoint encode (fuel : nat) (e : encoder) (el : addr) (parent : option addr)
  : M W (option error) :=
  match fuel with
  | O => timeout
  | S fuel' =>
      do n <- lenVisited;
      if Nat.ltb recursionLimit n then ret None
      else
        do ok <- isVisited el;
        if ok then write "<!-- cycle detected -->" ;; ret None
        else
          do scope <- diffScope parent el;
          do depth <- lenVisited;
          do err <- encodeOpenTag e el scope depth;
          match err with
          | Some y => ret (Some y)
          | None =>
              do E <- loadElem el;
              do stop <-
                (if Nat.eqb (length (Children E)) 0
                 then if Nat.ltb 0 (lenBytes (Content E))
                      then let (mStr, mErr) := xmlEncodeString (stringOfBytes (Content E)) in
                           match mErr with
                           | Some y => ret (Some (Some y))
                           | None => write mStr ;; ret None
                           end
                      else ret (Some None)
                 else ret None);
              match stop with
              | Some r => ret r
              | None =>
                  do E <- loadElem el;
                  do err <- encodeChildren (encode fuel' e) el 0 (length (Children E));
                  match err with
                  | Some y => ret (Some y)
                  | None =>
                      do depth <- lenVisited;
                      encodeCloseTag e el depth
                  end
              end
          end
  end.

(** An encoding from the root never needs more nested calls than this. *)
Definition encodeFuel : nat := S (S recursionLimit).

(** [Encode(w, el)]: a new encoder and a new [visited] map *)
Definition Encode (el : addr) : M W (option error) :=
  fun s => encode encodeFuel (mkEncoder "" "" false) el None
                  (mkState (heap s) newVisited (sink s)).

End Encoder.

(** ** The entry points that encode to a [bytes.Buffer] *)

(** [bytes.Buffer.Write] appends and never fails. *)
Definition bufferWrite (buf p : string) : string * option error := (buf +:+ p, None).

Section Marshal.

Variable Prefix : Scope -> xmlName -> string.
Variable recursionLimit : nat.

(** The result is the bytes of the buffer and the heap after the call. *)
Definition Marshal (h : Heap) (el : addr) : outcome Heap string :=
  match Encode bufferWrite Prefix recursionLimit el (mkState h newVisited "") with
  | Ret None s => Ret (sink s) (heap s)
  | Ret (Some _) _ => Panic
  | Panic => Panic
  | Timeout => Timeout
  end.

Definition MarshalIndent (h : Heap) (el : addr) (prefix indent : string)
  : outcome Heap string :=
  match encode bufferWrite Prefix recursionLimit (encodeFuel recursionLimit)
               (mkEncoder prefix indent true) el None (mkState h newVisited "") with
  | Ret None s => Ret (sink s) (heap s)
  | Ret (Some _) _ => Panic
  | Panic => Panic
  | Timeout => Timeout
  end.

(** [el.String()] *)
Definition String_ (h : Heap) (el : addr) : outcome Heap string := Marshal h el.

End Marshal.

(** ** Sample data *)

(** A [Prefix] for names without a namespace, used on sample inputs. *)
Definition localPrefix (_ : Scope) (n : xmlName) : string := Local n.

Definition leafElement (tag : string) (attrs : attrSlice) (content : option string) : Element :=
  mkElement (mkStart (mkName "" tag) attrs) (mkScope []) content [].

(** <module name="<"/> *)
Definition moduleAttrHeap : Heap :=
  mkHeap [leafElement "module" (Some 0) None] [[mkAttr (mkName "" "name") "<"]].

(** <module>&lt;&gt;</module>, parsed *)
Definition moduleContentHeap : Heap :=
  mkHeap [leafElement "module" None (Some "<>")] [].

(** <module/> *)
Definition moduleEmptyHeap : Heap := mkHeap [leafElement "module" None None] [].

(** A writer that counts the calls of [Write] and appends what it is
    given, except on call number [k] (from 0), which fails *)
Definition failNth (k : nat) (w : nat * string) (p : string)
  : (nat * string) * option error :=
  if Nat.eqb (fst w) k
  then ((S (fst w), snd w), Some "write failed")
  else ((S (fst w), snd w +:+ p), None).

(** a holds b, whose slice of children is the array that holds a *)
Definition cyclicHeap : Heap :=
  mkHeap [mkElement (mkStart (mkName "" "a") None) (mkScope []) None [1];
          mkElement (mkStart (mkName "" "b") None) (mkScope []) None [0]] [].

(** The two ancestors on the path a, b *)
Definition pathAB : gset addr := {[0]} ∪ ({[1]} ∪ newVisited).

(** The ancestor a alone *)
Definition pathA : gset addr := {[0]} ∪ newVisited.

(** A parent with one namespace and a child that declares a second one *)
Definition scopedHeap : Heap :=
  mkHeap [mkElement (mkStart (mkName "" "a") None)
                    (mkScope [mkName "urn:x" "x"]) None [1];
          mkElement (mkStart (mkName "" "b") None)
                    (mkScope [mkName "urn:x" "x"; mkName "urn:y" "y"]) None []] [].

(** a(x) with the child b *)
Definition parentHeap : Heap :=
  mkHeap [mkElement (mkStart (mkName "" "a") None) (mkScope []) (Some "x") [1];
          leafElement "b" None None] [].

(** ** Pure views of what a run writes and reads *)

(** The elements a slice of attributes holds in a heap *)
Definition sliceAttrs (arrs : list (list xmlAttr)) (sl : attrSlice) : option (list xmlAttr) :=
  match sl with
  | None => Some []
  | Some a => arrs !! a
  end.

Definition escapeAttr (a : xmlAttr) : xmlAttr := setValue (encodeAll (Value a)) a.

(** The copy [encodeOpenTag] renders, for the element [E] and a new
    backing array at [a] *)
Definition escapedCopy (E : Element) (a : addr) : Element :=
  mkElement (mkStart (Name (StartElement E)) (Some a)) (ElScope E)
            (Some (encodeAll (stringOfBytes (Content E)))) (Children E).

(** Whether the pretty printer breaks the line after the open tag *)
Definition openTagBreaks (e : encoder) (E : Element) : bool :=
  pretty e && (negb (Nat.eqb (length (Children E)) 0) || Nat.eqb (lenBytes (Content E)) 0).

(** The scope [diffScope] returns under the parent cell [P] *)
Definition scopeFor (P : option Element) (E : Element) : Scope :=
  match P with
  | None => ElScope E
  | Some P => mkScope (diffNs (ns (ElScope P)) (ns (ElScope E)))
  end.

(** The cell of the parent pointer: [Some None] for the nil parent *)
Definition parentElem (h : Heap) (parent : option addr) : option (option Element) :=
  match parent with
  | None => Some None
  | Some p => match elems h !! p with
              | Some P => Some (Some P)
              | None => None
              end
  end.

Definition cycleMarker : string := "<!-- cycle detected -->".

Section Views.

Context {W : Type}.
Variable Write : W -> string -> W * option error.
Variable Prefix : Scope -> xmlName -> string.

(** The writer after [n] writes of [p] whose errors are dropped *)
Fixpoint writeN (w : W) (p : string) (n : nat) : W :=
  match n with
  | O => w
  | S n' => writeN (fst (Write w p)) p n'
  end.

(** The writer and the error after a template printed [chunks] *)
Fixpoint emitW (w : W) (chunks : list string) : W * option error :=
  match chunks with
  | [] => (w, None)
  | c :: chunks' =>
      match Write w c with
      | (w', Some x) => (w', Some x)
      | (w', None) => emitW w' chunks'
      end
  end.

(** The error and the state after [encodeOpenTag] on an element whose
    cell holds [E] and whose attributes are [src] *)
Definition openTagResult (e : encoder) (scope : Scope) (depth : nat)
    (E : Element) (src : list xmlAttr) (s : State W) : option error * State W :=
  let C := escapedCopy E (length (arrays (heap s))) in
  let h' := mkHeap (elems (heap s) ++ [C]) (arrays (heap s) ++ [map escapeAttr src]) in
  let w1 := if pretty e then writeN (sink s) (indent e) depth else sink s in
  let r := emitW w1 (startChunks (Prefix (ElScope E)) (Name (StartElement E))
                       (map escapeAttr src) (ns scope) (Children E) (Content C)) in
  match snd r with
  | Some y => (Some y, mkState h' (visited s) (fst r))
  | None =>
      (None, mkState h' (visited s)
               (if openTagBreaks e E then fst (Write (fst r) newline) else fst r))
  end.

(** The error and the state after [encodeCloseTag] *)
Definition closeTagResult (e : encoder) (depth : nat) (E : Element) (s : State W)
  : option error * State W :=
  let w1 := if pretty e && negb (Nat.eqb (length (Children E)) 0)
            then writeN (sink s) (indent e) depth else sink s in
  let r := emitW w1 (endChunks (Prefix (ElScope E)) (Name (StartElement E))) in
  match snd r with
  | Some y => (Some y, mkState (heap s) (visited s) (fst r))
  | None =>
      (None, mkState (heap s) (visited s)
               (if pretty e then fst (Write (fst r) newline) else fst r))
  end.

(** What [encode] does after the open tag of an element without children *)
Definition leafResult (e : encoder) (E : Element) (depth : nat) (s1 : State W)
  : option error * State W :=
  if Nat.ltb 0 (lenBytes (Content E))
  then closeTagResult e depth E
         (mkState (heap s1) (visited s1)
                  (fst (Write (sink s1) (encodeAll (stringOfBytes (Content E))))))
  else (None, s1).

End Views.

(** *** What a [bytes.Buffer] holds after the writes *)

Fixpoint repeatString (p : string) (n : nat) : string :=
  match n with
  | O => ""
  | S n' => p +:+ repeatString p n'
  end.

Definition concatChunks (chunks : list string) : string :=
  fold_right String.append "" chunks.

(** The chunks of the ["start"] template before its last one *)
Definition startHead (qname : xmlName -> string) (name : xmlName)
    (attrs : list xmlAttr) (NS : list xmlName) : list string :=
  ["<"; qname name]
    ++ concat (map (attrChunks qname) attrs)
    ++ concat (map nsChunks NS).

Definition openTagBytes (Prefix : Scope -> xmlName -> string) (e : encoder)
    (scope : Scope) (depth : nat) (E : Element) (src : list xmlAttr) : string :=
  (if pretty e then repeatString (indent e) depth else "")
  +:+ concatChunks (startChunks (Prefix (ElScope E)) (Name (StartElement E))
                      (map escapeAttr src) (ns scope) (Children E)
                      (Some (encodeAll (stringOfBytes (Content E)))))
  +:+ (if openTagBreaks e E then newline else "").

Definition closeTagBytes (Prefix : Scope -> xmlName -> string) (e : encoder)
    (depth : nat) (E : Element) : string :=
  (if pretty e && negb (Nat.eqb (length (Children E)) 0)
   then repeatString (indent e) depth else "")
  +:+ concatChunks (endChunks (Prefix (ElScope E)) (Name (StartElement E)))
  +:+ (if pretty e then newline else "").

(** The bytes before the last chunk of the open tag: the indentation and
    [<name], the attributes and the namespace declarations *)
Definition openTagFront (Prefix : Scope -> xmlName -> string) (e : encoder)
    (scope : Scope) (depth : nat) (E : Element) (src : list xmlAttr) : string :=
  (if pretty e then repeatString (indent e) depth else "")
  +:+ concatChunks (startHead (Prefix (ElScope E)) (Name (StartElement E))
                      (map escapeAttr src) (ns scope)).

Definition lineEnd (e : encoder) : string := if pretty e then newline else "".

Definition quoted (s : string) : string := dquote +:+ s +:+ dquote.

(** The value a run returns, if it returns *)
Definition output {S A : Type} (o : outcome S A) : option A :=
  match o with
  | Ret a _ => Some a
  | _ => None
  end.

(** ** Well-formed heaps: no dangling pointer *)

Definition validSlice (h : Heap) (sl : attrSlice) : Prop :=
  match sl with
  | None => True
  | Some a => a < length (arrays h)
  end.

Definition validElement (h : Heap) (E : Element) : Prop :=
  validSlice h (Attr (StartElement E))
  /\ Forall (fun c => c < length (elems h)) (Children E).

Definition wfHeap (h : Heap) : Prop := Forall (validElement h) (elems h).

Definition validParent (h : Heap) (parent : option addr) : Prop :=
  match parent with
  | None => True
  | Some p => p < length (elems h)
  end.

(** [h'] is [h] with new cells after it *)
Definition extends (h h' : Heap) : Prop :=
  elems h `prefix_of` elems h' /\ arrays h `prefix_of` arrays h'.

(** Every cell of [h] is in [h'] as it was. *)
Definition preserved (h h' : Heap) : Prop :=
  (forall (p : addr) (E : Element), elems h !! p = Some E -> elems h' !! p = Some E)
  /\ (forall (a : addr) (arr : list xmlAttr),
        arrays h !! a = Some arr -> arrays h' !! a = Some arr).

Definition setContentAt (h : Heap) (p : addr) (c : option string) : Heap :=
  mkHeap (alter (setContent c) p (elems h)) (arrays h).

(** ** What a run guarantees *)

(** A run from a well-formed heap: it returns, leaving a well-formed heap
    that extends the one it started from and, unless it returns an error,
    the [visited] map as it found it; it returns no error when the writer
    never fails; it runs out of fuel only when given less than the
    recursion limit asks for. *)
Definition neverFails {W : Type} (Write : W -> string -> W * option error) : Prop :=
  forall (w : W) (p : string), snd (Write w p) = None.

Definition okRun {W : Type} (Write : W -> string -> W * option error)
    (L fuel : nat) (s : State W) (o : outcome (State W) (option error)) : Prop :=
  match o with
  | Ret r s' =>
      extends (heap s) (heap s') /\ wfHeap (heap s')
      /\ (r = None -> visited s' = visited s)
      /\ (neverFails Write -> r = None)
  | Panic => False
  | Timeout => fuel = 0 \/ fuel + size (visited s) < L + 2
  end.

(** Two cells the encoder cannot tell apart: they differ at most in
    [Content], and where they have no children in how the same bytes of
    content are held. *)
Definition agreeElement (E1 E2 : Element) : Prop :=
  StartElement E1 = StartElement E2
  /\ ElScope E1 = ElScope E2
  /\ Children E1 = Children E2
  /\ (Children E1 = [] -> stringOfBytes (Content E1) = stringOfBytes (Content E2)).

(** Two heaps whose first [n] elements and first [m] arrays agree in that
    sense and point into that region only *)
Definition similar (n m : nat) (h1 h2 : Heap) : Prop :=
  (forall p : addr, p < n ->
     exists E1 E2 : Element,
       elems h1 !! p = Some E1 /\ elems h2 !! p = Some E2 /\ agreeElement E1 E2
       /\ Forall (fun c => c < n) (Children E1)
       /\ match Attr (StartElement E1) with Some a => a < m | None => True end)
  /\ (forall a : addr, a < m ->
        exists arr : list xmlAttr, arrays h1 !! a = Some arr /\ arrays h2 !! a = Some arr).

(** Two outcomes with the same result, [visited] map and writer *)
Definition sameObs {W : Type} (o1 o2 : outcome (State W) (option error)) : Prop :=
  match o1, o2 with
  | Ret r1 s1, Ret r2 s2 => r1 = r2 /\ visited s1 = visited s2 /\ sink s1 = sink s2
  | Panic, Panic => True
  | Timeout, Timeout => True
  | _, _ => False
  end.

(** [encode] with [fuel] cannot tell similar heaps apart. *)
Definition simHyp {W : Type} (Write : W -> string -> W * option error)
    (Prefix : Scope -> xmlName -> string) (recursionLimit : nat)
    (n m fuel : nat) (e : encoder) : Prop :=
  forall (el : addr) (parent : option addr) (s1 s2 : State W),
    similar n m (heap s1) (heap s2) ->
    wfHeap (heap s1) -> wfHeap (heap s2) ->
    visited s1 = visited s2 -> sink s1 = sink s2 ->
    el < n -> match parent with Some p => p < n | None => True end ->
    sameObs (encode Write Prefix recursionLimit fuel e el parent s1)
            (encode Write Prefix recursionLimit fuel e el parent s2).

(** *** Bytes already in the buffer *)

(** The state [s] with the bytes [w] in the buffer before its own *)
Definition prepend (w : string) (s : State string) : State string :=
  mkState (heap s) (visited s) (w +:+ sink s).

Definition prependOut {A : Type} (w : string) (o : outcome (State string) A)
  : outcome (State string) A :=
  match o with
  | Ret a s => Ret a (prepend w s)
  | Panic => Panic
  | Timeout => Timeout
  end.

(** A computation that leaves the bytes already in the buffer where they
    are and does not look at them *)
Definition framed {A : Type} (m : M string A) : Prop :=
  forall (w : string) (s : State string), m (prepend w s) = prependOut w (m s).

(** The bytes [encode] writes to an empty buffer for [el] under [parent],
    on the heap [h] with [vis] visited, when it returns nil *)
Definition bytesAt (Prefix : Scope -> xmlName -> string) (recursionLimit : nat)
    (fuel : nat) (e : encoder) (h : Heap) (vis : gset addr) (parent : option addr)
    (el : addr) : option string :=
  match encode bufferWrite Prefix recursionLimit fuel e el parent (mkState h vis "") with
  | Ret None s' => Some (sink s')
  | _ => None
  end.

(** ** Bytes, errors and trees: what the further properties speak of *)

(** Whether the byte [c] occurs in [s] *)
Fixpoint hasChar (c : ascii) (s : string) : bool :=
  match s with
  | EmptyString => false
  | String d s' => if ascii_dec d c then true else hasChar c s'
  end.

Definition ampChar : ascii := "&"%char.
Definition ltChar : ascii := "<"%char.
Definition gtChar : ascii := ">"%char.
Definition quotChar : ascii := ascii_of_nat 34.

(** The escape of one byte *)
Definition escapeChar (c : ascii) : string :=
  if ascii_dec c ampChar then "&amp;"
  else if ascii_dec c ltChar then "&lt;"
  else if ascii_dec c gtChar then "&gt;"
  else if ascii_dec c quotChar then "&quot;"
  else String c "".

Fixpoint escapeChars (s : string) : string :=
  match s with
  | EmptyString => ""
  | String c s' => escapeChar c +:+ escapeChars s'
  end.

(** [c] is none of the four bytes the codec escapes. *)
Definition plainChar (c : ascii) : Prop := c <> ampChar /\ c <> ltChar /\ c <> gtChar /\ c <> quotChar.

Definition plainString (s : string) : Prop :=
  hasChar ampChar s = false /\ hasChar ltChar s = false
  /\ hasChar gtChar s = false /\ hasChar quotChar s = false.

(** Byte by byte images, for the strings between two passes of the decoder *)
Fixpoint flatChars (f : ascii -> string) (s : string) : string :=
  match s with
  | EmptyString => ""
  | String c s' => f c +:+ flatChars f s'
  end.

Definition afterLt (c : ascii) : string :=
  if ascii_dec c ltChar then "<" else escapeChar c.

Definition afterGt (c : ascii) : string :=
  if ascii_dec c ltChar then "<" else if ascii_dec c gtChar then ">" else escapeChar c.

(** [y] is an error some call of [Write] returns. *)
Definition fromWriter {W : Type} (Write : W -> string -> W * option error) (y : error) : Prop :=
  exists (w : W) (p : string), snd (Write w p) = Some y.

(** ** Trees *)

(** A tree of cells: the element, the attributes its slice holds and the
    trees of its children *)
Inductive Tree : Type :=
| Node (E : Element) (src : list xmlAttr) (kids : list Tree).

Fixpoint heightT (t : Tree) : nat :=
  match t with
  | Node _ _ kids => S (fold_right Nat.max 0 (map heightT kids))
  end.

(** The heap holds the tree [t] at [p], and no node of [t] is in [vis] or
    below itself. *)
Inductive reprIn (h : Heap) : gset addr -> addr -> Tree -> Prop :=
| reprNode (vis : gset addr) (p : addr) (E : Element) (src : list xmlAttr)
    (kids : list Tree) :
    p ∉ vis ->
    elems h !! p = Some E ->
    sliceAttrs (arrays h) (Attr (StartElement E)) = Some src ->
    Forall2 (reprIn h ({[p]} ∪ vis)) (Children E) kids ->
    reprIn h vis p (Node E src kids).

(** The bytes of a tree at [depth] under the parent cell [P] *)
Fixpoint render (Prefix : Scope -> xmlName -> string) (e : encoder) (depth : nat) (P : option Element) (t : Tree) : string :=
  match t with
  | Node E src kids =>
      openTagBytes Prefix e (scopeFor P E) depth E src
      +:+ (if Nat.eqb (length (Children E)) 0
           then if Nat.ltb 0 (lenBytes (Content E))
                then encodeAll (stringOfBytes (Content E)) +:+ closeTagBytes Prefix e depth E
                else ""
           else concatChunks (map (render Prefix e (S depth) (Some E)) kids)
                  +:+ closeTagBytes Prefix e depth E)
  end.

(** [encode] with [fuel] writes the bytes of the trees that the heap [h0]
    holds. *)
Definition rendersAt (Prefix : Scope -> xmlName -> string) (recursionLimit : nat)
    (h0 : Heap) (fuel : nat) : Prop :=
  forall (e : encoder) (p : addr) (parent : option addr) (P : option Element)
         (s : State string) (t : Tree),
    extends h0 (heap s) ->
    reprIn h0 (visited s) p t ->
    parentElem (heap s) parent = Some P ->
    size (visited s) + heightT t <= recursionLimit + 1 ->
    heightT t <= fuel ->
    exists s' : State string,
      encode bufferWrite Prefix recursionLimit fuel e p parent s = Ret None s'
      /\ sink s' = sink s +:+ render Prefix e (size (visited s)) P t
      /\ extends (heap s) (heap s')
      /\ visited s' = visited s.

(** The tree of [parentHeap] *)
Definition parentTree : Tree :=
  Node (mkElement (mkStart (mkName "" "a") None) (mkScope []) (Some "x") [1]) []
       [Node (leafElement "b" None None) [] []].

(** * Properties *)

(** ** The escape codec *)

(** C1: decoding does not invert encoding.  [xmlDecodeString] walks the
    mapping table in the order of [xmlEncodeString], so ["&amp;"] is
    decoded first, not last: the string ["&lt;"] is encoded as
    ["&amp;lt;"], which decodes to ["<"]. *)
Theorem xmlDecodeString_after_encode_amp_lt :
  xmlEncodeString "&lt;" = ("&amp;lt;", None)
  /\ xmlDecodeString "&amp;lt;" = ("<", None)
  /\ fst (xmlDecodeString (fst (xmlEncodeString "&lt;"))) <> "&lt;".
Proof.
  split; [reflexivity | split; [reflexivity | ]].
  vm_compute. discriminate.
Qed.

(** ** Scope diffing *)

Lemma diffNs_nil_l (c : list xmlName) : diffNs [] c = c.
Proof. destruct c; reflexivity. Qed.

Lemma diffNs_nil_r (p : list xmlName) : diffNs p [] = [].
Proof. destruct p; reflexivity. Qed.

(** [diffNs] drops exactly the longest common front run: it returns
    [drop k c] where the first [k] entries of both lists coincide and
    entry [k], when both lists have one, differs. *)
Lemma diffNs_drop (p c : list xmlName) :
  exists k : nat,
    diffNs p c = drop k c
    /\ take k c = take k p
    /\ k <= length p /\ k <= length c
    /\ (forall x y, p !! k = Some x -> c !! k = Some y -> x <> y).
Proof.
  revert c. induction p as [|x p IH]; intros c.
  - exists 0. rewrite diffNs_nil_l. repeat split; simpl; try lia.
    intros ? ? Hx; discriminate Hx.
  - destruct c as [|y c].
    + exists 0. repeat split; simpl; try lia.
      intros ? ? _ Hy; discriminate Hy.
    + simpl. destruct (decide (y = x)) as [->|Hne].
      * destruct (IH c) as (k & Hd & Ht & Hp & Hc & Hm).
        exists (S k). simpl. repeat split; try lia; try assumption.
        now rewrite Ht.
      * exists 0. simpl. repeat split; try lia.
        intros x' y' Hx Hy. injection Hx as <-. injection Hy as <-.
        intros E. apply Hne. now symmetry.
Qed.

Lemma diffNs_same (p : list xmlName) : diffNs p p = [].
Proof.
  induction p as [|x p IH]; [reflexivity|].
  simpl. destruct (decide (x = x)); [assumption | contradiction].
Qed.

Lemma diffNs_app (p d : list xmlName) : diffNs p (p ++ d) = d.
Proof.
  induction p as [|x p IH]; [apply diffNs_nil_l|].
  simpl. destruct (decide (x = x)); [assumption | contradiction].
Qed.

(** ** Runs of the primitives *)

Lemma insert_snoc {A : Type} (l : list A) (x y : A) :
  <[length l := y]> (l ++ [x]) = l ++ [y].
Proof. rewrite insert_app_r_alt by lia. now rewrite Nat.sub_diag. Qed.

Lemma lookup_snoc {A : Type} (l : list A) (x : A) : (l ++ [x]) !! length l = Some x.
Proof. apply list_lookup_middle. reflexivity. Qed.

Section MonadRuns.

Context {W : Type}.

Lemma bind_ret_run {A B : Type} (m : M W A) (k : A -> M W B) (s s' : State W) (a : A) :
  m s = Ret a s' -> bind m k s = k a s'.
Proof. intros H. unfold bind. now rewrite H. Qed.

Lemma bind_assoc_run {A B C : Type} (m : M W A) (k : A -> M W B) (k' : B -> M W C)
    (s : State W) :
  bind (bind m k) k' s = bind m (fun a => bind (k a) k') s.
Proof. unfold bind. now destruct (m s). Qed.

Lemma loadElem_run (p : addr) (s : State W) (E : Element) :
  elems (heap s) !! p = Some E -> loadElem p s = Ret E s.
Proof. intros H. unfold loadElem. now rewrite H. Qed.

Lemma modifyElem_run (p : addr) (f : Element -> Element) (s : State W) (E : Element) :
  elems (heap s) !! p = Some E ->
  modifyElem p f s
  = Ret tt (mkState (mkHeap (<[p := f E]> (elems (heap s))) (arrays (heap s)))
                    (visited s) (sink s)).
Proof. intros H. unfold modifyElem. now rewrite H. Qed.

Lemma lenAttrs_run (sl : attrSlice) (s : State W) (src : list xmlAttr) :
  sliceAttrs (arrays (heap s)) sl = Some src -> lenAttrs sl s = Ret (length src) s.
Proof.
  destruct sl as [a|]; cbn; intros H.
  - now rewrite H.
  - now injection H as <-.
Qed.

Lemma rangeAttrs_run (sl : attrSlice) (s : State W) (src : list xmlAttr) :
  sliceAttrs (arrays (heap s)) sl = Some src -> rangeAttrs sl s = Ret src s.
Proof.
  destruct sl as [a|]; cbn; intros H.
  - now rewrite H.
  - now injection H as <-.
Qed.

Lemma indexAttr_run (sl : attrSlice) (i : nat) (s : State W) (src : list xmlAttr)
    (x : xmlAttr) :
  sliceAttrs (arrays (heap s)) sl = Some src -> src !! i = Some x ->
  indexAttr sl i s = Ret x s.
Proof.
  destruct sl as [a|]; cbn; intros H Hx.
  - now rewrite H, Hx.
  - injection H as <-. discriminate Hx.
Qed.

(** The loop that copies the attributes of [el] into the new array *)
Lemma copy_loop (els : list Element) (arrs : list (list xmlAttr)) (vis : gset addr) (w : W)
    (el : addr) (E C : Element) (src : list xmlAttr) (k i : nat) :
  els !! el = Some E ->
  sliceAttrs arrs (Attr (StartElement E)) = Some src ->
  Attr (StartElement C) = Some (length arrs) ->
  i + k = length src ->
  forRange i k (fun i =>
      do E <- loadElem el;
      do x <- indexAttr (Attr (StartElement E)) i;
      do C <- loadElem (length els);
      modifyAttr (Attr (StartElement C)) i (fun _ => x))
    (mkState (mkHeap (els ++ [C]) (arrs ++ [take i src ++ replicate k zeroAttr])) vis w)
  = Ret tt (mkState (mkHeap (els ++ [C]) (arrs ++ [src])) vis w).
Proof.
  intros HE Hsrc HC. revert i. induction k as [|k IH]; intros i Hik.
  - cbn [forRange replicate]. rewrite app_nil_r, Nat.add_0_r in *.
    subst i. now rewrite firstn_all.
  - cbn [forRange].
    assert (Hlt : i < length src) by lia.
    destruct (lookup_lt_is_Some_2 src i Hlt) as [x Hx].
    erewrite bind_ret_run; [apply (IH (S i)); lia|].
    erewrite bind_ret_run; [| apply loadElem_run; cbn; eapply lookup_app_l_Some, HE].
    erewrite bind_ret_run.
    2:{ eapply indexAttr_run; [|exact Hx]. cbn [heap arrays].
        destruct (Attr (StartElement E)); cbn in *; [|assumption].
        now apply lookup_app_l_Some. }
    erewrite bind_ret_run; [| apply loadElem_run; cbn; apply lookup_snoc].
    rewrite HC. unfold modifyAttr. cbn. rewrite lookup_snoc.
    assert (Hlen : length (take i src) = i) by (rewrite length_take; lia).
    rewrite lookup_app_r by lia. rewrite Hlen, Nat.sub_diag. cbn.
    rewrite insert_snoc. do 4 f_equal.
    rewrite insert_app_r_alt by lia. rewrite Hlen, Nat.sub_diag. cbn.
    rewrite (take_S_r _ _ _ Hx). now rewrite <- app_assoc.
Qed.

(** The loop that escapes the values of the new array in place *)
Lemma escape_loop (els : list Element) (arrs : list (list xmlAttr)) (vis : gset addr) (w : W)
    (src : list xmlAttr) (k i : nat) :
  i + k = length src ->
  escapeAttrs (Some (length arrs)) i k
    (mkState (mkHeap els (arrs ++ [map escapeAttr (take i src) ++ drop i src])) vis w)
  = Ret None (mkState (mkHeap els (arrs ++ [map escapeAttr src])) vis w).
Proof.
  revert i. induction k as [|k IH]; intros i Hik.
  - cbn [escapeAttrs]. rewrite Nat.add_0_r in Hik. subst i.
    now rewrite firstn_all, drop_all, app_nil_r.
  - cbn [escapeAttrs].
    assert (Hlt : i < length src) by lia.
    destruct (lookup_lt_is_Some_2 src i Hlt) as [x Hx].
    assert (Hlen : length (map escapeAttr (take i src)) = i)
      by (rewrite length_map, length_take; lia).
    assert (Hi : (map escapeAttr (take i src) ++ drop i src) !! i = Some x).
    { rewrite lookup_app_r by lia. rewrite Hlen, Nat.sub_diag.
      rewrite lookup_drop, Nat.add_0_r. exact Hx. }
    erewrite bind_ret_run.
    2:{ unfold indexAttr. cbn. rewrite lookup_snoc, Hi. reflexivity. }
    unfold xmlEncodeString.
    erewrite bind_ret_run.
    2:{ unfold modifyAttr. cbn. rewrite lookup_snoc, Hi. reflexivity. }
    rewrite insert_snoc. rewrite <- (IH (S i)) by lia.
    do 4 f_equal.
    rewrite insert_app_r_alt by lia. rewrite Hlen, Nat.sub_diag.
    rewrite (drop_S _ _ _ Hx). cbn.
    rewrite (take_S_r _ _ _ Hx), map_app, <- app_assoc. reflexivity.
Qed.

End MonadRuns.

Ltac load_old HE :=
  erewrite bind_ret_run;
  [| apply loadElem_run; cbn [heap elems]; eapply lookup_app_l_Some, HE].
Ltac load_new :=
  erewrite bind_ret_run; [| apply loadElem_run; cbn [heap elems]; apply lookup_snoc].
Ltac modify_new :=
  erewrite bind_ret_run; [| apply modifyElem_run; cbn [heap elems]; apply lookup_snoc];
  cbn [heap elems arrays visited sink]; rewrite insert_snoc.
Ltac load_here HE :=
  erewrite bind_ret_run; [| apply loadElem_run; exact HE].

Section Runs.

Context {W : Type}.
Variable Write : W -> string -> W * option error.
Variable Prefix : Scope -> xmlName -> string.

Lemma forRange_write (p : string) (n i : nat) (s : State W) :
  forRange i n (fun _ => write Write p ;; ret tt) s
  = Ret tt (mkState (heap s) (visited s) (writeN Write (sink s) p n)).
Proof.
  revert i s. induction n as [|n IH]; intros i s.
  - now destruct s.
  - cbn [forRange]. unfold bind, write, ret.
    destruct (Write (sink s) p) as [w' err] eqn:Hw.
    rewrite IH. cbn. now rewrite Hw.
Qed.

Lemma emit_run (chunks : list string) (s : State W) :
  emit Write chunks s
  = Ret (snd (emitW Write (sink s) chunks))
        (mkState (heap s) (visited s) (fst (emitW Write (sink s) chunks))).
Proof.
  revert s. induction chunks as [|c chunks IH]; intros s.
  - now destruct s.
  - simpl. unfold bind, write.
    destruct (Write (sink s) c) as [w' [x|]]; [reflexivity|].
    now rewrite IH.
Qed.

Lemma encodeOpenTag_run (e : encoder) (el : addr) (scope : Scope) (depth : nat)
    (s : State W) (E : Element) (src : list xmlAttr) :
  elems (heap s) !! el = Some E ->
  sliceAttrs (arrays (heap s)) (Attr (StartElement E)) = Some src ->
  encodeOpenTag Write Prefix e el scope depth s
  = Ret (fst (openTagResult Write Prefix e scope depth E src s))
        (snd (openTagResult Write Prefix e scope depth E src s)).
Proof.
  destruct s as [[els arrs] vis w]. unfold openTagResult.
  cbn [heap elems arrays visited sink].
  intros HE Hsrc.
  unfold encodeOpenTag.
  erewrite (bind_ret_run _ _ _
              (mkState (mkHeap els arrs) vis
                 (if pretty e then writeN Write w (indent e) depth else w))).
  2:{ destruct (pretty e); [apply forRange_write | reflexivity]. }
  erewrite bind_ret_run; [| reflexivity]. cbn [heap elems arrays visited sink].
  modify_new.
  rewrite bind_assoc_run. load_old HE. modify_new.
  rewrite bind_assoc_run. load_old HE.
  erewrite (bind_ret_run _ _ _ _ (length src)); [| now apply lenAttrs_run].
  rewrite bind_assoc_run. erewrite bind_ret_run; [| reflexivity].
  cbn [heap elems arrays visited sink]. modify_new.
  erewrite bind_ret_run.
  2:{ apply (copy_loop els arrs vis _ el E _ src (length src) 0 HE Hsrc); reflexivity. }
  rewrite bind_assoc_run. load_old HE. modify_new.
  load_old HE. unfold xmlEncodeString at 1. cbv iota beta.
  modify_new.
  rewrite bind_assoc_run. load_old HE. modify_new.
  load_new.
  change (setChildren _ _) with (escapedCopy E (length arrs)).
  cbn [escapedCopy StartElement Attr].
  erewrite (bind_ret_run _ _ _ _ (length src)).
  2:{ apply lenAttrs_run. cbn. apply lookup_snoc. }
  erewrite bind_ret_run.
  2:{ apply (escape_loop _ arrs vis _ src (length src) 0). reflexivity. }
  cbv beta iota. modify_new.
  change (setAttr _ _) with (escapedCopy E (length arrs)).
  unfold executeStart. rewrite bind_assoc_run. load_new.
  cbn [escapedCopy StartElement Attr ElScope Name Children Content].
  rewrite bind_assoc_run. erewrite bind_ret_run.
  2:{ apply rangeAttrs_run. cbn. apply lookup_snoc. }
  erewrite bind_ret_run; [| apply emit_run].
  cbn [heap elems arrays visited sink].
  destruct (emitW Write _ _) as [w2 [y|]]; cbn [fst snd]; [reflexivity|].
  unfold openTagBreaks. destruct (pretty e); cbn [andb]; [|reflexivity].
  rewrite bind_assoc_run. load_old HE.
  destruct (negb _ || _); [|reflexivity].
  unfold bind, write, ret. cbn [heap visited sink].
  now destruct (Write w2 newline).
Qed.

Lemma closeIndent_run (e : encoder) (el : addr) (E : Element) (n i : nat) (s : State W) :
  elems (heap s) !! el = Some E ->
  forRange i n (fun _ =>
      do E <- loadElem el;
      if negb (Nat.eqb (length (Children E)) 0)
      then write Write (indent e) ;; ret tt
      else ret tt) s
  = Ret tt (mkState (heap s) (visited s)
              (if negb (Nat.eqb (length (Children E)) 0)
               then writeN Write (sink s) (indent e) n else sink s)).
Proof.
  revert i s. induction n as [|n IH]; intros i s HE.
  - destruct s. cbn. now destruct (negb _).
  - cbn [forRange]. rewrite bind_assoc_run. load_here HE.
    destruct (negb (Nat.eqb (length (Children E)) 0)) eqn:Hc.
    + unfold bind at 1. unfold bind at 1. unfold write, ret.
      destruct (Write (sink s) (indent e)) as [w' err] eqn:Hw.
      rewrite IH by exact HE. cbn. now rewrite Hw.
    + unfold bind at 1. unfold ret at 1. now rewrite IH by exact HE.
Qed.

Lemma encodeCloseTag_run (e : encoder) (el : addr) (depth : nat) (s : State W)
    (E : Element) :
  elems (heap s) !! el = Some E ->
  encodeCloseTag Write Prefix e el depth s
  = Ret (fst (closeTagResult Write Prefix e depth E s))
        (snd (closeTagResult Write Prefix e depth E s)).
Proof.
  intros HE. unfold encodeCloseTag, closeTagResult.
  erewrite (bind_ret_run _ _ _
              (mkState (heap s) (visited s)
                 (if pretty e && negb (Nat.eqb (length (Children E)) 0)
                  then writeN Write (sink s) (indent e) depth else sink s))).
  2:{ destruct (pretty e); cbn [andb].
      - now apply closeIndent_run.
      - now destruct s. }
  unfold executeEnd. rewrite bind_assoc_run. load_here HE.
  erewrite bind_ret_run; [| apply emit_run].
  cbn [heap elems arrays visited sink].
  destruct (emitW Write _ _) as [w2 [y|]]; cbn [fst snd]; [reflexivity|].
  destruct (pretty e); [|reflexivity].
  unfold bind, write, ret. cbn [heap visited sink].
  now destruct (Write w2 newline).
Qed.

End Runs.

(** ** Runs of [encode] *)

Section EncodeRuns.
Context {W : Type}.
Variable Write : W -> string -> W * option error.
Variable Prefix : Scope -> xmlName -> string.
Variable recursionLimit : nat.

Lemma diffScope_run (parent : option addr) (el : addr) (s : State W) (E : Element)
    (P : option Element) :
  elems (heap s) !! el = Some E ->
  parentElem (heap s) parent = Some P ->
  diffScope parent el s = Ret (scopeFor P E) s.
Proof.
  intros HE HP. destruct parent as [p|]; cbn in HP.
  - destruct (elems (heap s) !! p) as [P'|] eqn:Hp; [|discriminate].
    injection HP as <-. unfold diffScope.
    load_here HE. load_here Hp. reflexivity.
  - injection HP as <-. unfold diffScope. load_here HE. reflexivity.
Qed.

Lemma encode_over_limit (fuel : nat) (e : encoder) (el : addr) (parent : option addr)
    (s : State W) :
  recursionLimit < size (visited s) ->
  encode Write Prefix recursionLimit (S fuel) e el parent s = Ret None s.
Proof.
  intros H. cbn [encode]. unfold bind at 1. unfold lenVisited.
  apply Nat.ltb_lt in H. now rewrite H.
Qed.

Lemma encode_cycle (fuel : nat) (e : encoder) (el : addr) (parent : option addr)
    (s : State W) :
  size (visited s) <= recursionLimit ->
  el ∈ visited s ->
  encode Write Prefix recursionLimit (S fuel) e el parent s
  = Ret None (mkState (heap s) (visited s) (fst (Write (sink s) cycleMarker))).
Proof.
  intros H Hin. cbn [encode]. unfold bind at 1. unfold lenVisited.
  apply Nat.ltb_ge in H. rewrite H.
  unfold bind at 1. unfold isVisited. rewrite bool_decide_eq_true_2 by exact Hin.
  unfold bind, write, ret. cbn. fold cycleMarker. now destruct (Write (sink s) cycleMarker).
Qed.

Lemma encode_unfold (fuel : nat) (e : encoder) (el : addr) (parent : option addr)
    (s : State W) (E : Element) (P : option Element) (src : list xmlAttr) :
  size (visited s) <= recursionLimit ->
  el ∉ visited s ->
  elems (heap s) !! el = Some E ->
  parentElem (heap s) parent = Some P ->
  sliceAttrs (arrays (heap s)) (Attr (StartElement E)) = Some src ->
  encode Write Prefix recursionLimit (S fuel) e el parent s
  = let r := openTagResult Write Prefix e (scopeFor P E) (size (visited s)) E src s in
    match fst r with
    | Some y => Ret (Some y) (snd r)
    | None =>
        if Nat.eqb (length (Children E)) 0
        then Ret (fst (leafResult Write Prefix e E (size (visited s)) (snd r)))
                 (snd (leafResult Write Prefix e E (size (visited s)) (snd r)))
        else
          match encodeChildren (encode Write Prefix recursionLimit fuel e) el 0 (length (Children E)) (snd r) with
          | Ret (Some y) s2 => Ret (Some y) s2
          | Ret None s2 => encodeCloseTag Write Prefix e el (size (visited s2)) s2
          | Panic => Panic
          | Timeout => Timeout
          end
    end.
Proof.
  intros H Hin HE HP Hsrc. cbn [encode]. unfold bind at 1. unfold lenVisited at 1.
  apply Nat.ltb_ge in H. rewrite H.
  unfold bind at 1. unfold isVisited. rewrite bool_decide_eq_false_2 by exact Hin.
  erewrite bind_ret_run; [| eapply diffScope_run; eassumption].
  erewrite bind_ret_run; [| reflexivity].
  erewrite bind_ret_run; [| eapply encodeOpenTag_run; eassumption].
  cbv zeta.
  assert (Hs1 : elems (heap (snd (openTagResult Write Prefix e (scopeFor P E)
                                     (size (visited s)) E src s))) !! el = Some E
                /\ visited (snd (openTagResult Write Prefix e (scopeFor P E)
                                     (size (visited s)) E src s)) = visited s).
  { unfold openTagResult. destruct (snd (emitW _ _ _)); cbn; split; try reflexivity;
      now apply lookup_app_l_Some. }
  destruct Hs1 as [HE1 Hv1].
  destruct (openTagResult _ _ _ _ _ _ _ _) as [[y|] s1]; cbn [fst snd] in *; [reflexivity|].
  load_here HE1.
  unfold leafResult.
  destruct (Nat.eqb (length (Children E)) 0) eqn:Hch.
  - destruct (Nat.ltb 0 (lenBytes (Content E))) eqn:Hct.
    + unfold xmlEncodeString. cbv iota beta.
      rewrite bind_assoc_run. unfold bind at 1. unfold write at 1.
      destruct (Write (sink s1) _) as [w' err'] eqn:Hw. cbn [fst].
      unfold bind at 1. unfold ret at 1.
      load_here HE1. apply Nat.eqb_eq in Hch. rewrite Hch. cbn [encodeChildren].
      erewrite bind_ret_run; [| reflexivity]. cbv iota beta.
      erewrite bind_ret_run; [| reflexivity]. cbn [visited].
      rewrite Hv1. apply encodeCloseTag_run. exact HE1.
    + reflexivity.
  - erewrite bind_ret_run; [| reflexivity]. cbv iota beta.
    load_here HE1. unfold bind at 1.
    destruct (encodeChildren _ _ _ _ _) as [[y|] s2| |]; try reflexivity.
Qed.

(** Extension and well-formedness *)

Lemma extends_refl (h : Heap) : extends h h.
Proof. split; reflexivity. Qed.

Lemma extends_trans (h1 h2 h3 : Heap) : extends h1 h2 -> extends h2 h3 -> extends h1 h3.
Proof. intros [? ?] [? ?]. split; etrans; eassumption. Qed.

Lemma extends_lookup_elem (h h' : Heap) (p : addr) (E : Element) :
  extends h h' -> elems h !! p = Some E -> elems h' !! p = Some E.
Proof. intros [Hp _] H. eapply prefix_lookup_Some; eassumption. Qed.

Lemma extends_lookup_array (h h' : Heap) (a : addr) (arr : list xmlAttr) :
  extends h h' -> arrays h !! a = Some arr -> arrays h' !! a = Some arr.
Proof. intros [_ Hp] H. eapply prefix_lookup_Some; eassumption. Qed.

Lemma extends_length (h h' : Heap) :
  extends h h' ->
  length (elems h) <= length (elems h') /\ length (arrays h) <= length (arrays h').
Proof. intros [H1 H2]. split; now apply prefix_length. Qed.

Lemma validElement_extends (h h' : Heap) (E : Element) :
  extends h h' -> validElement h E -> validElement h' E.
Proof.
  intros Hx [Hs Hc]. apply extends_length in Hx as [HlE HlA]. split.
  - destruct (Attr (StartElement E)); cbn in *; lia.
  - eapply Forall_impl; [exact Hc|]. cbn. intros; lia.
Qed.

Lemma wf_lookup (h : Heap) (p : addr) (E : Element) :
  wfHeap h -> elems h !! p = Some E -> validElement h E.
Proof. intros Hwf H. eapply (proj1 (Forall_lookup _ _) Hwf); eassumption. Qed.

Lemma wf_slice (h : Heap) (p : addr) (E : Element) :
  wfHeap h -> elems h !! p = Some E ->
  exists src, sliceAttrs (arrays h) (Attr (StartElement E)) = Some src.
Proof.
  intros Hwf H. destruct (wf_lookup _ _ _ Hwf H) as [Hs _].
  destruct (Attr (StartElement E)) as [a|]; unfold validSlice, sliceAttrs in *.
  - destruct (lookup_lt_is_Some_2 _ _ Hs) as [src Hsrc]. now exists src.
  - now exists [].
Qed.

Lemma wf_parent (h : Heap) (parent : option addr) :
  validParent h parent -> exists P, parentElem h parent = Some P.
Proof.
  destruct parent as [p|]; unfold validParent, parentElem; intros H.
  - destruct (lookup_lt_is_Some_2 _ _ H) as [P HP]. exists (Some P). now rewrite HP.
  - now exists None.
Qed.

Lemma openTagResult_heap (e : encoder) (scope : Scope) (depth : nat) (E : Element)
    (src : list xmlAttr) (s : State W) :
  let s1 := snd (openTagResult Write Prefix e scope depth E src s) in
  heap s1 = mkHeap (elems (heap s) ++ [escapedCopy E (length (arrays (heap s)))])
                   (arrays (heap s) ++ [map escapeAttr src])
  /\ visited s1 = visited s.
Proof.
  cbv zeta. unfold openTagResult. now destruct (snd (emitW _ _ _)).
Qed.

Lemma openTagResult_ok (e : encoder) (scope : Scope) (depth : nat) (el : addr) (E : Element)
    (src : list xmlAttr) (s : State W) :
  wfHeap (heap s) -> elems (heap s) !! el = Some E ->
  let s1 := snd (openTagResult Write Prefix e scope depth E src s) in
  extends (heap s) (heap s1) /\ wfHeap (heap s1) /\ visited s1 = visited s.
Proof.
  intros Hwf HE. cbv zeta.
  destruct (openTagResult_heap e scope depth E src s) as [Hh Hv].
  assert (Hx : extends (heap s) (heap (snd (openTagResult Write Prefix e scope depth E src s)))).
  { rewrite Hh. split; cbn; now apply prefix_app_r. }
  split; [exact Hx|]. split; [|exact Hv].
  unfold wfHeap. rewrite Hh at 2. cbn [elems]. apply Forall_app. split.
  - eapply Forall_impl; [exact Hwf|]. intros E'. now apply validElement_extends.
  - apply Forall_singleton. split.
    + rewrite Hh. cbn. rewrite length_app. cbn. lia.
    + destruct (wf_lookup _ _ _ Hwf HE) as [_ Hc].
      apply extends_length in Hx as [Hl _].
      cbn. eapply Forall_impl; [exact Hc|]. cbn. intros; lia.
Qed.

Lemma closeTagResult_frame (e : encoder) (depth : nat) (E : Element) (s : State W) :
  heap (snd (closeTagResult Write Prefix e depth E s)) = heap s
  /\ visited (snd (closeTagResult Write Prefix e depth E s)) = visited s.
Proof. unfold closeTagResult. now destruct (snd (emitW _ _ _)). Qed.

Lemma leafResult_frame (e : encoder) (E : Element) (depth : nat) (s : State W) :
  heap (snd (leafResult Write Prefix e E depth s)) = heap s
  /\ visited (snd (leafResult Write Prefix e E depth s)) = visited s.
Proof.
  unfold leafResult. destruct (Nat.ltb 0 _); [|now split].
  match goal with
  | |- context [closeTagResult _ _ _ _ _ ?s'] =>
      destruct (closeTagResult_frame e depth E s') as [-> ->]
  end.
  now split.
Qed.

Lemma emitW_never (w : W) (chunks : list string) :
  neverFails Write -> snd (emitW Write w chunks) = None.
Proof.
  intros Hnf. revert w. induction chunks as [|c chunks IH]; intros w; [reflexivity|].
  cbn. pose proof (Hnf w c) as H. destruct (Write w c) as [w' [x|]]; [discriminate H|].
  apply IH.
Qed.

Lemma openTagResult_never (e : encoder) (scope : Scope) (depth : nat) (E : Element)
    (src : list xmlAttr) (s : State W) :
  neverFails Write -> fst (openTagResult Write Prefix e scope depth E src s) = None.
Proof.
  intros Hnf. unfold openTagResult. now rewrite (emitW_never _ _ Hnf).
Qed.

Lemma closeTagResult_never (e : encoder) (depth : nat) (E : Element) (s : State W) :
  neverFails Write -> fst (closeTagResult Write Prefix e depth E s) = None.
Proof.
  intros Hnf. unfold closeTagResult. now rewrite (emitW_never _ _ Hnf).
Qed.

Lemma leafResult_never (e : encoder) (E : Element) (depth : nat) (s : State W) :
  neverFails Write -> fst (leafResult Write Prefix e E depth s) = None.
Proof.
  intros Hnf. unfold leafResult. destruct (Nat.ltb 0 _); [|reflexivity].
  now apply closeTagResult_never.
Qed.

Lemma encodeChildren_ok (fuel : nat) (enc : addr -> option addr -> M W (option error))
    (el : addr) (E : Element) :
  (forall (child : addr) (s : State W),
      wfHeap (heap s) -> child < length (elems (heap s)) ->
      el < length (elems (heap s)) ->
      okRun Write recursionLimit fuel s (enc child (Some el) s)) ->
  forall (k i : nat) (s : State W),
    wfHeap (heap s) -> elems (heap s) !! el = Some E ->
    i + k = length (Children E) -> el ∉ visited s ->
    match encodeChildren enc el i k s with
    | Ret r s' =>
        extends (heap s) (heap s') /\ wfHeap (heap s')
        /\ (r = None -> visited s' = visited s)
        /\ (neverFails Write -> r = None)
    | Panic => False
    | Timeout => fuel = 0 \/ fuel + S (size (visited s)) < recursionLimit + 2
    end.
Proof.
  intros Henc. induction k as [|k IH]; intros i s Hwf HE Hik Hnin.
  - cbn. split; [apply extends_refl|]. auto.
  - cbn [encodeChildren].
    erewrite bind_ret_run; [| reflexivity].
    load_here HE.
    destruct (lookup_lt_is_Some_2 (Children E) i ltac:(lia)) as [child Hchild].
    rewrite Hchild.
    assert (Hvalid : child < length (elems (heap s))).
    { destruct (wf_lookup _ _ _ Hwf HE) as [_ Hc].
      eapply (proj1 (Forall_lookup _ _) Hc); eassumption. }
    assert (Hel : el < length (elems (heap s))) by (eapply lookup_lt_Some; eassumption).
    pose proof (Henc child (mkState (heap s) ({[el]} ∪ visited s) (sink s)) Hwf Hvalid Hel)
      as Hrun.
    unfold bind at 1.
    destruct (enc child (Some el) _) as [[y|] s1| |]; cbn [okRun heap visited] in Hrun.
    + destruct Hrun as (Hx & Hwf1 & _ & Hnf). split; [exact Hx|]. split; [exact Hwf1|].
      split; [intros; discriminate | exact Hnf].
    + destruct Hrun as (Hx & Hwf1 & Hv & _). specialize (Hv eq_refl).
      erewrite bind_ret_run; [| reflexivity].
      assert (HE1 : elems (heap s1) !! el = Some E) by (eapply extends_lookup_elem; eassumption).
      assert (Hvis : visited s1 ∖ {[el]} = visited s) by (rewrite Hv; set_solver).
      rewrite Hvis.
      specialize (IH (S i) (mkState (heap s1) (visited s) (sink s1)) Hwf1 HE1 ltac:(lia) Hnin).
      destruct (encodeChildren enc el (S i) k _) as [r s2| |]; cbn [heap visited] in IH.
      * destruct IH as (Hx2 & Hwf2 & Hv2 & Hnf2). split; [|auto].
        eapply extends_trans; eassumption.
      * exact IH.
      * exact IH.
    + exact Hrun.
    + destruct Hrun as [H0|Hlt]; [now left|right].
      rewrite size_union in Hlt by set_solver. rewrite size_singleton in Hlt. lia.
Qed.

Lemma encode_ok (fuel : nat) :
  forall (e : encoder) (el : addr) (parent : option addr) (s : State W),
    wfHeap (heap s) -> el < length (elems (heap s)) -> validParent (heap s) parent ->
    okRun Write recursionLimit fuel s (encode Write Prefix recursionLimit fuel e el parent s).
Proof.
  induction fuel as [|fuel IH]; intros e el parent s Hwf Hel Hpar.
  - cbn. now left.
  - destruct (le_lt_dec (size (visited s)) recursionLimit) as [Hle|Hgt].
    2:{ rewrite encode_over_limit by exact Hgt. cbn.
        split; [apply extends_refl|]. auto. }
    destruct (decide (el ∈ visited s)) as [Hin|Hnin].
    { rewrite encode_cycle by assumption. cbn.
      split; [apply extends_refl|]. auto. }
    destruct (lookup_lt_is_Some_2 _ _ Hel) as [E HE].
    destruct (wf_slice _ _ _ Hwf HE) as [src Hsrc].
    destruct (wf_parent _ _ Hpar) as [P HP].
    rewrite (encode_unfold fuel e el parent s E P src Hle Hnin HE HP Hsrc). cbv zeta.
    destruct (openTagResult_ok e (scopeFor P E) (size (visited s)) el E src s Hwf HE)
      as (Hx1 & Hwf1 & Hv1).
    pose proof (openTagResult_never e (scopeFor P E) (size (visited s)) E src s) as Hn1.
    destruct (openTagResult _ _ _ _ _ _ _ _) as [[y|] s1]; cbn [fst snd] in *.
    { cbn. split; [exact Hx1|]. split; [exact Hwf1|]. split; [intros; discriminate|exact Hn1]. }
    destruct (Nat.eqb (length (Children E)) 0) eqn:Hch.
    { destruct (leafResult_frame e E (size (visited s)) s1) as [Hh Hv].
      pose proof (leafResult_never e E (size (visited s)) s1) as Hn2.
      cbn. rewrite Hh, Hv. auto. }
    assert (HE1 : elems (heap s1) !! el = Some E) by (eapply extends_lookup_elem; eassumption).
    assert (Hnin1 : el ∉ visited s1) by now rewrite Hv1.
    pose proof (encodeChildren_ok fuel (encode Write Prefix recursionLimit fuel e) el E
                  (fun child s' Hw Hc Hl => IH e child (Some el) s' Hw Hc Hl)
                  (length (Children E)) 0 s1 Hwf1 HE1 eq_refl Hnin1) as Hloop.
    destruct (encodeChildren _ _ _ _ _) as [[y|] s2| |].
    + destruct Hloop as (Hx2 & Hwf2 & _ & Hnf2). cbn.
      split; [eapply extends_trans; eassumption|]. split; [exact Hwf2|].
      split; [intros; discriminate|exact Hnf2].
    + destruct Hloop as (Hx2 & Hwf2 & Hv2 & _). specialize (Hv2 eq_refl).
      assert (HE2 : elems (heap s2) !! el = Some E)
        by (eapply extends_lookup_elem; eassumption).
      rewrite (encodeCloseTag_run Write Prefix e el _ s2 E HE2).
      destruct (closeTagResult_frame e (size (visited s2)) E s2) as [Hh Hv].
      pose proof (closeTagResult_never e (size (visited s2)) E s2) as Hn3.
      cbn. rewrite Hh, Hv. split; [eapply extends_trans; eassumption|].
      split; [exact Hwf2|]. split; [intros _; now rewrite Hv2 | exact Hn3].
    + exact Hloop.
    + cbn. right. rewrite Hv1 in Hloop. destruct Hloop as [->|Hlt]; lia.
Qed.

(** Runs on heaps that agree on what the encoder reads *)

Lemma similar_extends (n m : nat) (h1 h2 h1' h2' : Heap) :
  similar n m h1 h2 -> extends h1 h1' -> extends h2 h2' -> similar n m h1' h2'.
Proof.
  intros [HE HA] Hx1 Hx2. split.
  - intros p Hp. destruct (HE p Hp) as (E1 & E2 & H1 & H2 & Hag & Hc & Ha).
    exists E1, E2. repeat split; try assumption;
      try (eapply extends_lookup_elem; eassumption); apply Hag.
  - intros a Ha. destruct (HA a Ha) as (arr & H1 & H2).
    exists arr. split; eapply extends_lookup_array; eassumption.
Qed.

Lemma lenBytes_stringOfBytes (c : option string) :
  lenBytes c = String.length (stringOfBytes c).
Proof. now destruct c. Qed.

Lemma openTagResult_agree (e : encoder) (scope : Scope) (depth : nat)
    (E1 E2 : Element) (src : list xmlAttr) (s1 s2 : State W) :
  agreeElement E1 E2 -> sink s1 = sink s2 ->
  fst (openTagResult Write Prefix e scope depth E1 src s1)
  = fst (openTagResult Write Prefix e scope depth E2 src s2)
  /\ sink (snd (openTagResult Write Prefix e scope depth E1 src s1))
     = sink (snd (openTagResult Write Prefix e scope depth E2 src s2)).
Proof.
  intros (Hse & Hsc & Hch & Hct) Hw. unfold openTagResult.
  rewrite Hw, Hse, Hsc, Hch.
  assert (Hclose : closeOfStart (Children E2)
                     (Content (escapedCopy E1 (length (arrays (heap s1)))))
                   = closeOfStart (Children E2)
                       (Content (escapedCopy E2 (length (arrays (heap s2)))))).
  { unfold closeOfStart. destruct (Children E2) as [|c cs] eqn:Hc; [|reflexivity].
    cbn. rewrite Hct; [reflexivity|]. now rewrite Hch. }
  assert (Hbr : openTagBreaks e E1 = openTagBreaks e E2).
  { unfold openTagBreaks. rewrite Hch.
    destruct (Children E2) as [|c cs] eqn:Hc; [|reflexivity].
    rewrite !lenBytes_stringOfBytes, Hct; [reflexivity|]. now rewrite Hch. }
  unfold startChunks. rewrite Hclose, Hbr.
  destruct (snd (emitW _ _ _)); now split.
Qed.

Lemma closeTagResult_agree (e : encoder) (depth : nat) (E1 E2 : Element) (s1 s2 : State W) :
  agreeElement E1 E2 -> sink s1 = sink s2 ->
  fst (closeTagResult Write Prefix e depth E1 s1)
  = fst (closeTagResult Write Prefix e depth E2 s2)
  /\ sink (snd (closeTagResult Write Prefix e depth E1 s1))
     = sink (snd (closeTagResult Write Prefix e depth E2 s2)).
Proof.
  intros (Hse & Hsc & Hch & Hct) Hw. unfold closeTagResult.
  rewrite Hw, Hse, Hsc, Hch. destruct (snd (emitW _ _ _)); now split.
Qed.

Lemma leafResult_agree (e : encoder) (depth : nat) (E1 E2 : Element) (s1 s2 : State W) :
  agreeElement E1 E2 -> Children E1 = [] -> sink s1 = sink s2 ->
  fst (leafResult Write Prefix e E1 depth s1) = fst (leafResult Write Prefix e E2 depth s2)
  /\ sink (snd (leafResult Write Prefix e E1 depth s1)) = sink (snd (leafResult Write Prefix e E2 depth s2)).
Proof.
  intros Hag Hnil Hw. unfold leafResult.
  destruct Hag as (Hse & Hsc & Hch & Hct).
  rewrite !lenBytes_stringOfBytes, (Hct Hnil).
  destruct (Nat.ltb 0 _); [|now split].
  apply closeTagResult_agree; [repeat split; assumption|].
  cbn. now rewrite Hw.
Qed.

Lemma similar_lookup (n m : nat) (h1 h2 : Heap) (p : addr) :
  similar n m h1 h2 -> p < n ->
  p < length (elems h1) /\ p < length (elems h2).
Proof.
  intros [HE _] Hp. destruct (HE p Hp) as (E1 & E2 & H1 & H2 & _).
  split; eapply lookup_lt_Some; eassumption.
Qed.

Lemma encodeChildren_sim (n m fuel : nat) (e : encoder) (el : addr) (E1 E2 : Element) :
  simHyp Write Prefix recursionLimit n m fuel e ->
  el < n -> Children E1 = Children E2 -> Forall (fun c => c < n) (Children E1) ->
  forall (k i : nat) (s1 s2 : State W),
    similar n m (heap s1) (heap s2) ->
    wfHeap (heap s1) -> wfHeap (heap s2) ->
    visited s1 = visited s2 -> sink s1 = sink s2 ->
    elems (heap s1) !! el = Some E1 -> elems (heap s2) !! el = Some E2 ->
    i + k = length (Children E1) ->
    sameObs (encodeChildren (encode Write Prefix recursionLimit fuel e) el i k s1)
            (encodeChildren (encode Write Prefix recursionLimit fuel e) el i k s2).
Proof.
  intros IH Hel Hch Hcn. induction k as [|k IHk];
    intros i s1 s2 Hsim Hwf1 Hwf2 Hv Hw HE1 HE2 Hik.
  - cbn. auto.
  - cbn [encodeChildren].
    erewrite bind_ret_run; [| reflexivity]. erewrite (bind_ret_run (markVisited el));
      [| reflexivity].
    load_here HE1. load_here HE2. rewrite <- Hch.
    destruct (lookup_lt_is_Some_2 (Children E1) i ltac:(lia)) as [child Hchild].
    rewrite Hchild.
    assert (Hcn' : child < n)
      by (eapply (proj1 (Forall_lookup _ _) Hcn); eassumption).
    destruct (similar_lookup n m _ _ child Hsim Hcn') as [Hc1 Hc2].
    destruct (similar_lookup n m _ _ el Hsim Hel) as [Hl1 Hl2].
    set (t1 := mkState (heap s1) ({[el]} ∪ visited s1) (sink s1)).
    set (t2 := mkState (heap s2) ({[el]} ∪ visited s2) (sink s2)).
    pose proof (IH child (Some el) t1 t2 Hsim Hwf1 Hwf2
                  ltac:(cbn; now rewrite Hv) Hw Hcn' Hel) as Hobs.
    pose proof (encode_ok fuel e child (Some el) t1 Hwf1 Hc1 Hl1) as Hok1.
    pose proof (encode_ok fuel e child (Some el) t2 Hwf2 Hc2 Hl2) as Hok2.
    unfold bind at 1. unfold bind at 2.
    destruct (encode Write Prefix recursionLimit fuel e child (Some el) t1) as [r1 u1| |];
      destruct (encode Write Prefix recursionLimit fuel e child (Some el) t2) as [r2 u2| |];
      cbn in Hobs, Hok1, Hok2; try contradiction; try exact I.
    destruct Hobs as (<- & Hv' & Hw').
    destruct Hok1 as (Hx1 & Hwf1' & _). destruct Hok2 as (Hx2 & Hwf2' & _).
    destruct r1 as [y|]; [cbn; auto|].
    erewrite bind_ret_run; [| reflexivity].
    erewrite (bind_ret_run (deleteVisited el)); [| reflexivity].
    apply IHk; cbn [heap visited sink]; try assumption.
    + eapply similar_extends; eassumption.
    + now rewrite Hv'.
    + eapply extends_lookup_elem; eassumption.
    + eapply extends_lookup_elem; eassumption.
    + lia.
Qed.

Lemma encode_sim (n m fuel : nat) (e : encoder) : simHyp Write Prefix recursionLimit n m fuel e.
Proof.
  induction fuel as [|fuel IH];
    intros el parent s1 s2 Hsim Hwf1 Hwf2 Hv Hw Hel Hpar.
  - exact I.
  - destruct (le_lt_dec (size (visited s1)) recursionLimit) as [Hle|Hgt].
    2:{ rewrite !encode_over_limit by (rewrite <- ?Hv; exact Hgt). cbn. auto. }
    destruct (decide (el ∈ visited s1)) as [Hin|Hnin].
    { rewrite !encode_cycle by (rewrite <- ?Hv; assumption). cbn.
      now rewrite Hv, Hw. }
    destruct Hsim as [HsE HsA].
    destruct (HsE el Hel) as (E1 & E2 & HE1 & HE2 & Hag & Hcn & Hsl).
    assert (Hsrc : exists src, sliceAttrs (arrays (heap s1)) (Attr (StartElement E1)) = Some src
                            /\ sliceAttrs (arrays (heap s2)) (Attr (StartElement E2)) = Some src).
    { destruct Hag as (<- & _). destruct (Attr (StartElement E1)) as [a|]; cbn.
      - destruct (HsA a Hsl) as (arr & H1 & H2). now exists arr.
      - now exists []. }
    destruct Hsrc as (src & Hsrc1 & Hsrc2).
    assert (HP : exists P1 P2, parentElem (heap s1) parent = Some P1
                            /\ parentElem (heap s2) parent = Some P2
                            /\ scopeFor P1 E1 = scopeFor P2 E2).
    { destruct parent as [p|]; unfold parentElem.
      - destruct (HsE p Hpar) as (P1 & P2 & H1 & H2 & (_ & HPs & _) & _).
        exists (Some P1), (Some P2). rewrite H1, H2. cbn.
        destruct Hag as (_ & -> & _). now rewrite HPs.
      - exists None, None. cbn. destruct Hag as (_ & -> & _). auto. }
    destruct HP as (P1 & P2 & HP1 & HP2 & Hscope).
    rewrite (encode_unfold fuel e el parent s1 E1 P1 src Hle Hnin HE1 HP1 Hsrc1).
    rewrite (encode_unfold fuel e el parent s2 E2 P2 src ltac:(now rewrite <- Hv)
               ltac:(now rewrite <- Hv) HE2 HP2 Hsrc2).
    cbv zeta. rewrite <- Hscope, <- Hv.
    destruct (openTagResult_agree e (scopeFor P1 E1) (size (visited s1)) E1 E2 src s1 s2 Hag Hw)
      as [Her Hsk].
    destruct (openTagResult_ok e (scopeFor P1 E1) (size (visited s1)) el E1 src s1 Hwf1 HE1)
      as (Hx1 & Hwf1' & Hv1).
    destruct (openTagResult_ok e (scopeFor P1 E1) (size (visited s1)) el E2 src s2 Hwf2 HE2)
      as (Hx2 & Hwf2' & Hv2).
    destruct (openTagResult Write Prefix e _ _ E1 src s1) as [r1 u1].
    destruct (openTagResult Write Prefix e _ _ E2 src s2) as [r2 u2].
    cbn [fst snd] in *. subst r2.
    destruct r1 as [y|]; [cbn; rewrite Hv1, Hv2; auto|].
    pose proof Hag as (Hse & Hsc & Hch & Hct). rewrite <- Hch.
    destruct (Nat.eqb (length (Children E1)) 0) eqn:Hlen.
    { apply Nat.eqb_eq, nil_length_inv in Hlen.
      destruct (leafResult_agree e (size (visited s1)) E1 E2 u1 u2 Hag Hlen Hsk) as [Hr Hs].
      destruct (leafResult_frame e E1 (size (visited s1)) u1) as [_ Hlv1].
      destruct (leafResult_frame e E2 (size (visited s1)) u2) as [_ Hlv2].
      cbn. rewrite Hr, Hs, Hlv1, Hlv2, Hv1, Hv2. auto. }
    assert (HE1' : elems (heap u1) !! el = Some E1)
      by (eapply extends_lookup_elem; eassumption).
    assert (HE2' : elems (heap u2) !! el = Some E2)
      by (eapply extends_lookup_elem; eassumption).
    assert (Hsim' : similar n m (heap u1) (heap u2))
      by (eapply similar_extends; [split|..]; eassumption).
    pose proof (encodeChildren_sim n m fuel e el E1 E2 IH Hel Hch Hcn
                  (length (Children E1)) 0 u1 u2 Hsim' Hwf1' Hwf2'
                  ltac:(now rewrite Hv1, Hv2) Hsk HE1' HE2' eq_refl) as Hloop.
    assert (Hin1 : el ∉ visited u1) by now rewrite Hv1.
    assert (Hin2 : el ∉ visited u2) by now rewrite Hv2, <- Hv.
    pose proof (encodeChildren_ok fuel (encode Write Prefix recursionLimit fuel e) el E1
                  (fun child s' Hw Hc Hl => encode_ok fuel e child (Some el) s' Hw Hc Hl)
                  (length (Children E1)) 0 u1 Hwf1' HE1' eq_refl Hin1) as Hok1.
    pose proof (encodeChildren_ok fuel (encode Write Prefix recursionLimit fuel e) el E2
                  (fun child s' Hw Hc Hl => encode_ok fuel e child (Some el) s' Hw Hc Hl)
                  (length (Children E2)) 0 u2 Hwf2' HE2' eq_refl Hin2) as Hok2.
    rewrite <- Hch in Hok2.
    destruct (encodeChildren _ _ _ _ u1) as [q1 v1| |];
      destruct (encodeChildren _ _ _ _ u2) as [q2 v2| |];
      cbn in Hloop; try contradiction; try exact I.
    destruct Hloop as (<- & Hvv & Hww).
    destruct q1 as [y|]; [cbn; auto|].
    destruct Hok1 as (Hy1 & _ & _). destruct Hok2 as (Hy2 & _ & _).
    rewrite (encodeCloseTag_run Write Prefix e el _ v1 E1)
      by (eapply extends_lookup_elem; eassumption).
    rewrite (encodeCloseTag_run Write Prefix e el _ v2 E2)
      by (eapply extends_lookup_elem; eassumption).
    rewrite <- Hvv.
    destruct (closeTagResult_agree e (size (visited v1)) E1 E2 v1 v2 Hag Hww) as [Hr Hs].
    destruct (closeTagResult_frame e (size (visited v1)) E1 v1) as [_ Hc1].
    destruct (closeTagResult_frame e (size (visited v1)) E2 v2) as [_ Hc2].
    cbn. rewrite Hr, Hs, Hc1, Hc2. auto.
Qed.

End EncodeRuns.

(** ** Strings and buffers *)

Lemma append_cons (c : ascii) (s t : string) : String c s +:+ t = String c (s +:+ t).
Proof. reflexivity. Qed.

Lemma append_nil_r (s : string) : s +:+ "" = s.
Proof. induction s as [|c s IH]; [reflexivity|]. now rewrite append_cons, IH. Qed.

Lemma append_assoc (s1 s2 s3 : string) : (s1 +:+ s2) +:+ s3 = s1 +:+ (s2 +:+ s3).
Proof. induction s1 as [|c s1 IH]; [reflexivity|]. now rewrite !append_cons, IH. Qed.

Lemma length_append (s1 s2 : string) :
  String.length (s1 +:+ s2) = String.length s1 + String.length s2.
Proof. induction s1 as [|c s1 IH]; [reflexivity|]. rewrite append_cons. cbn. now rewrite IH. Qed.

Lemma concatChunks_app (l1 l2 : list string) :
  concatChunks (l1 ++ l2) = concatChunks l1 +:+ concatChunks l2.
Proof.
  induction l1 as [|c l1 IH]; [reflexivity|].
  cbn. unfold concatChunks in *. cbn. now rewrite IH, append_assoc.
Qed.

Lemma replaceFrom_nonempty (old new : string) (c : ascii) (s : string) :
  new <> "" -> replaceFrom old new 0 (String c s) <> "".
Proof.
  intros Hnew. cbn [replaceFrom].
  destruct (String.prefix old (String c s)); [|discriminate].
  destruct new as [|d new]; [contradiction|]. discriminate.
Qed.

Lemma Replace_empty_iff (s old new : string) :
  new <> "" -> Replace s old new = "" <-> s = "".
Proof.
  intros Hnew. unfold Replace. split.
  - destruct s as [|c s]; [reflexivity|]. intros H.
    now apply replaceFrom_nonempty in H.
  - now intros ->.
Qed.

Lemma encodeAll_empty_iff (s : string) : encodeAll s = "" <-> s = "".
Proof.
  unfold encodeAll, vContentMappings. cbn [fold_left Decoded Encoded].
  rewrite !Replace_empty_iff by discriminate. reflexivity.
Qed.

Lemma writeN_buffer (w p : string) (n : nat) :
  writeN bufferWrite w p n = w +:+ repeatString p n.
Proof.
  revert w. induction n as [|n IH]; intros w; cbn.
  - now rewrite append_nil_r.
  - now rewrite IH, append_assoc.
Qed.

Lemma emitW_buffer (w : string) (chunks : list string) :
  emitW bufferWrite w chunks = (w +:+ concatChunks chunks, None).
Proof.
  revert w. induction chunks as [|c chunks IH]; intros w; cbn.
  - now rewrite append_nil_r.
  - rewrite IH. unfold concatChunks. cbn. now rewrite append_assoc.
Qed.

Lemma bufferWrite_never : neverFails bufferWrite.
Proof. intros w p. reflexivity. Qed.

Section Buffer.
Variable Prefix : Scope -> xmlName -> string.

Lemma openTagResult_buffer (e : encoder) (scope : Scope) (depth : nat) (E : Element)
    (src : list xmlAttr) (s : State string) :
  openTagResult bufferWrite Prefix e scope depth E src s
  = (None,
     mkState (mkHeap (elems (heap s) ++ [escapedCopy E (length (arrays (heap s)))])
                     (arrays (heap s) ++ [map escapeAttr src]))
             (visited s)
             (sink s +:+ openTagBytes Prefix e scope depth E src)).
Proof.
  unfold openTagResult, openTagBytes. rewrite emitW_buffer. cbn [fst snd escapedCopy Content].
  do 2 f_equal.
  destruct (pretty e); destruct (openTagBreaks _ E); cbn [bufferWrite fst];
    rewrite ?writeN_buffer, ?append_assoc, ?append_nil_r; reflexivity.
Qed.

Lemma closeTagResult_buffer (e : encoder) (depth : nat) (E : Element) (s : State string) :
  closeTagResult bufferWrite Prefix e depth E s
  = (None, mkState (heap s) (visited s) (sink s +:+ closeTagBytes Prefix e depth E)).
Proof.
  unfold closeTagResult, closeTagBytes. rewrite emitW_buffer. cbn [fst snd].
  do 2 f_equal.
  destruct (pretty e); destruct (negb _); cbn [andb bufferWrite fst];
    rewrite ?writeN_buffer, ?append_assoc, ?append_nil_r; reflexivity.
Qed.

End Buffer.

Section Leaf.
Variable Prefix : Scope -> xmlName -> string.
Variable recursionLimit : nat.

Lemma encode_leaf_buffer (fuel : nat) (e : encoder) (el : addr) (parent : option addr)
    (s : State string) (E : Element) (P : option Element) (src : list xmlAttr) :
  size (visited s) <= recursionLimit ->
  el ∉ visited s ->
  elems (heap s) !! el = Some E ->
  parentElem (heap s) parent = Some P ->
  sliceAttrs (arrays (heap s)) (Attr (StartElement E)) = Some src ->
  Children E = [] ->
  encode bufferWrite Prefix recursionLimit (S fuel) e el parent s
  = Ret None
      (mkState (mkHeap (elems (heap s) ++ [escapedCopy E (length (arrays (heap s)))])
                       (arrays (heap s) ++ [map escapeAttr src]))
               (visited s)
               (if Nat.ltb 0 (lenBytes (Content E))
                then (sink s +:+ openTagBytes Prefix e (scopeFor P E) (size (visited s)) E src)
                       +:+ encodeAll (stringOfBytes (Content E))
                       +:+ closeTagBytes Prefix e (size (visited s)) E
                else sink s +:+ openTagBytes Prefix e (scopeFor P E) (size (visited s)) E src)).
Proof.
  intros Hle Hnin HE HP Hsrc Hnil.
  rewrite (encode_unfold bufferWrite Prefix recursionLimit fuel e el parent s E P src
             Hle Hnin HE HP Hsrc).
  cbv zeta. rewrite openTagResult_buffer. cbn [fst snd]. rewrite Hnil. cbn [length Nat.eqb].
  unfold leafResult. destruct (Nat.ltb 0 (lenBytes (Content E))); [|reflexivity].
  rewrite closeTagResult_buffer. cbn [fst snd heap visited sink bufferWrite].
  now rewrite append_assoc.
Qed.

Lemma closeOfStart_self_closing (E : Element) (a : addr) :
  (closeOfStart (Children E) (Content (escapedCopy E a)) = " />"
   <-> Children E = [] /\ lenBytes (Content E) = 0)
  /\ (~ (Children E = [] /\ lenBytes (Content E) = 0) ->
      closeOfStart (Children E) (Content (escapedCopy E a)) = ">").
Proof.
  unfold closeOfStart. cbn [escapedCopy Content lenBytes].
  destruct (Children E) as [|c cs]; cbn [length Nat.eqb negb orb].
  - destruct (String.length (encodeAll (stringOfBytes (Content E)))) as [|n] eqn:Hlen;
      cbn [Nat.eqb negb].
    + assert (Hs : stringOfBytes (Content E) = "").
      { apply encodeAll_empty_iff. now destruct (encodeAll _). }
      assert (Hz : lenBytes (Content E) = 0) by now rewrite lenBytes_stringOfBytes, Hs.
      split; [tauto|]. intros H. exfalso. apply H. now split.
    + assert (Hz : lenBytes (Content E) <> 0).
      { rewrite lenBytes_stringOfBytes. intros H0.
        assert (Hs : stringOfBytes (Content E) = "") by now destruct (stringOfBytes _).
        rewrite Hs in Hlen. discriminate Hlen. }
      split; [|reflexivity]. split; [discriminate|]. intros [_ H]. contradiction.
  - split; [|reflexivity]. split; [discriminate|]. intros [H _]. discriminate H.
Qed.

(** C3: for a childless root that [Prefix] names [module], with the one
    attribute [name] of value [<] and no content, [MarshalIndent] with
    prefix [""] and indent ["  "] returns [<module name="&lt;" />] and a
    newline; with no attribute and the content [<>] it returns
    [<module>&lt;&gt;</module>] and a newline. *)
Theorem MarshalIndent_module_scenarios (h : Heap) (el : addr) (E : Element) :
  elems h !! el = Some E ->
  Children E = [] ->
  ns (ElScope E) = [] ->
  Prefix (ElScope E) (Name (StartElement E)) = "module" ->
  (forall an : xmlName,
      sliceAttrs (arrays h) (Attr (StartElement E)) = Some [mkAttr an "<"] ->
      Prefix (ElScope E) an = "name" ->
      lenBytes (Content E) = 0 ->
      output (MarshalIndent Prefix recursionLimit h el "" "  ")
      = Some ("<module name=" +:+ quoted "&lt;" +:+ " />" +:+ newline))
  /\ (sliceAttrs (arrays h) (Attr (StartElement E)) = Some [] ->
      stringOfBytes (Content E) = "<>" ->
      output (MarshalIndent Prefix recursionLimit h el "" "  ")
      = Some ("<module>&lt;&gt;</module>" +:+ newline)).
Proof.
  intros HE Hnil Hns Htag.
  assert (Hrun : forall src,
             sliceAttrs (arrays h) (Attr (StartElement E)) = Some src ->
             encode bufferWrite Prefix recursionLimit (encodeFuel recursionLimit)
               (mkEncoder "" "  " true) el None (mkState h newVisited "") = _)
    by (intros src Hsrc;
        exact (encode_leaf_buffer (S recursionLimit) (mkEncoder "" "  " true) el None
                 (mkState h newVisited "") E None src
                 ltac:(cbn; unfold newVisited; rewrite size_empty; lia)
                 ltac:(cbn; unfold newVisited; set_solver) HE eq_refl Hsrc Hnil)).
  split.
  - intros an Hsrc Han Hct. unfold MarshalIndent. rewrite (Hrun _ Hsrc).
    cbn [output sink heap visited]. rewrite Hct. cbn [Nat.ltb Nat.leb].
    unfold openTagBytes, startChunks, openTagBreaks, closeOfStart.
    assert (Hs : stringOfBytes (Content E) = "")
      by (rewrite lenBytes_stringOfBytes in Hct; now destruct (stringOfBytes (Content E))).
    rewrite Hnil, Hct, Hs. cbn [scopeFor]. rewrite Hns, Htag. cbn. rewrite Han. reflexivity.
  - intros Hsrc Hct. unfold MarshalIndent. rewrite (Hrun _ Hsrc).
    cbn [output sink heap visited].
    assert (Hlen : lenBytes (Content E) = 2) by now rewrite lenBytes_stringOfBytes, Hct.
    rewrite Hlen. cbn [Nat.ltb Nat.leb].
    unfold openTagBytes, closeTagBytes, startChunks, endChunks, openTagBreaks, closeOfStart.
    rewrite Hnil, Hct, Hlen. cbn [scopeFor]. rewrite Hns, Htag. reflexivity.
Qed.

Lemma openTagBytes_front (e : encoder) (scope : Scope) (depth : nat) (E : Element)
    (src : list xmlAttr) :
  openTagBytes Prefix e scope depth E src
  = openTagFront Prefix e scope depth E src
    +:+ closeOfStart (Children E) (Some (encodeAll (stringOfBytes (Content E))))
    +:+ (if openTagBreaks e E then newline else "").
Proof.
  unfold openTagBytes, openTagFront, startChunks, startHead.
  rewrite !app_assoc, concatChunks_app, <- !app_assoc.
  unfold concatChunks at 2. cbn [fold_right]. now rewrite append_nil_r, !append_assoc.
Qed.

Lemma leaf_forms (fuel : nat) (e : encoder) (el : addr)
    (parent : option addr) (s : State string) (E : Element) (P : option Element)
    (src : list xmlAttr) :
  size (visited s) <= recursionLimit ->
  el ∉ visited s ->
  elems (heap s) !! el = Some E ->
  parentElem (heap s) parent = Some P ->
  sliceAttrs (arrays (heap s)) (Attr (StartElement E)) = Some src ->
  Children E = [] ->
  let front := openTagFront Prefix e (scopeFor P E) (size (visited s)) E src in
  (lenBytes (Content E) = 0 ->
   exists h' : Heap,
     encode bufferWrite Prefix recursionLimit (S fuel) e el parent s
     = Ret None (mkState h' (visited s) (sink s +:+ front +:+ " />" +:+ lineEnd e)))
  /\ (0 < lenBytes (Content E) ->
      exists h' : Heap,
        encode bufferWrite Prefix recursionLimit (S fuel) e el parent s
        = Ret None (mkState h' (visited s)
                      (sink s +:+ front +:+ ">"
                         +:+ encodeAll (stringOfBytes (Content E))
                         +:+ "</" +:+ Prefix (ElScope E) (Name (StartElement E)) +:+ ">"
                         +:+ lineEnd e))).
Proof.
  intros Hle Hnin HE HP Hsrc Hnil front.
  destruct (closeOfStart_self_closing E 0) as [Hiff Hgt].
  cbn [escapedCopy Content] in Hiff, Hgt.
  split.
  - intros Hz. eexists.
    rewrite (encode_leaf_buffer fuel e el parent s E P src Hle Hnin HE HP Hsrc Hnil).
    rewrite Hz. cbn [Nat.ltb Nat.leb]. rewrite openTagBytes_front.
    fold front.
    replace (closeOfStart _ _) with " />" by (symmetry; apply Hiff; now split).
    unfold openTagBreaks, lineEnd. rewrite Hnil, Hz. cbn [length Nat.eqb negb orb].
    rewrite andb_true_r. reflexivity.
  - intros Hpos. eexists.
    rewrite (encode_leaf_buffer fuel e el parent s E P src Hle Hnin HE HP Hsrc Hnil).
    apply Nat.ltb_lt in Hpos as Hpos'. rewrite Hpos'. rewrite openTagBytes_front.
    fold front.
    replace (closeOfStart _ _) with ">" by (symmetry; apply Hgt; intros [_ H0]; lia).
    unfold openTagBreaks, closeTagBytes, endChunks, lineEnd, concatChunks.
    rewrite Hnil. cbn [length Nat.eqb negb orb andb fold_right].
    destruct (lenBytes (Content E)) as [|n] eqn:Hl; [lia|]. cbn [Nat.eqb].
    rewrite andb_false_r.
    rewrite ?append_assoc, ?append_nil_r. reflexivity.
Qed.

(** C4: the open tag ends in [ />] exactly when the element has neither
    children nor content, and in [>] otherwise; a childless element
    without content is encoded as its self-closing tag alone and one with
    content as its open tag, the escaped content and its close tag. *)
Theorem self_closing_iff_no_children_no_content (fuel : nat) (e : encoder) (el : addr)
    (parent : option addr) (s : State string) (E : Element) (P : option Element)
    (src : list xmlAttr) :
  size (visited s) <= recursionLimit ->
  el ∉ visited s ->
  elems (heap s) !! el = Some E ->
  parentElem (heap s) parent = Some P ->
  sliceAttrs (arrays (heap s)) (Attr (StartElement E)) = Some src ->
  let front := openTagFront Prefix e (scopeFor P E) (size (visited s)) E src in
  let close := closeOfStart (Children E) (Some (encodeAll (stringOfBytes (Content E)))) in
  (close = " />" <-> Children E = [] /\ lenBytes (Content E) = 0)
  /\ (~ (Children E = [] /\ lenBytes (Content E) = 0) -> close = ">")
  /\ (exists s1 : State string,
        encodeOpenTag bufferWrite Prefix e el (scopeFor P E) (size (visited s)) s
        = Ret None s1
        /\ sink s1 = sink s +:+ front +:+ close
                       +:+ (if openTagBreaks e E then newline else ""))
  /\ (Children E = [] -> lenBytes (Content E) = 0 ->
      exists h' : Heap,
        encode bufferWrite Prefix recursionLimit (S fuel) e el parent s
        = Ret None (mkState h' (visited s) (sink s +:+ front +:+ " />" +:+ lineEnd e)))
  /\ (Children E = [] -> 0 < lenBytes (Content E) ->
      exists h' : Heap,
        encode bufferWrite Prefix recursionLimit (S fuel) e el parent s
        = Ret None (mkState h' (visited s)
                      (sink s +:+ front +:+ ">"
                         +:+ encodeAll (stringOfBytes (Content E))
                         +:+ "</" +:+ Prefix (ElScope E) (Name (StartElement E)) +:+ ">"
                         +:+ lineEnd e))).
Proof.
  intros Hle Hnin HE HP Hsrc front close.
  destruct (closeOfStart_self_closing E 0) as [Hiff Hgt].
  split; [exact Hiff|]. split; [exact Hgt|]. split; [|split].
  - eexists. split.
    + rewrite (encodeOpenTag_run bufferWrite Prefix e el _ _ s E src HE Hsrc).
      now rewrite openTagResult_buffer.
    + cbn [sink snd]. now rewrite openTagBytes_front.
  - intros Hnil. apply (leaf_forms fuel e el parent s E P src Hle Hnin HE HP Hsrc Hnil).
  - intros Hnil. apply (leaf_forms fuel e el parent s E P src Hle Hnin HE HP Hsrc Hnil).
Qed.

Lemma append_eq_self_inv (x rest : string) : x +:+ rest = rest -> x = "".
Proof.
  intros H. apply (f_equal String.length) in H. rewrite length_append in H.
  destruct x; [reflexivity|]. cbn in H. lia.
Qed.

(** C10: a childless element whose content is the empty slice is encoded
    like one whose content is nil, as its self-closing tag; no childless
    element is encoded as an open tag directly followed by its close
    tag. *)
Theorem empty_content_is_self_closing (fuel : nat) (e : encoder) (el : addr)
    (parent : option addr) (s : State string) (E : Element) (P : option Element)
    (src : list xmlAttr) :
  size (visited s) <= recursionLimit ->
  el ∉ visited s ->
  elems (heap s) !! el = Some E ->
  parentElem (heap s) parent = Some P ->
  sliceAttrs (arrays (heap s)) (Attr (StartElement E)) = Some src ->
  Children E = [] ->
  let front := openTagFront Prefix e (scopeFor P E) (size (visited s)) E src in
  (Content E = None \/ Content E = Some "" ->
   exists h' : Heap,
     encode bufferWrite Prefix recursionLimit (S fuel) e el parent s
     = Ret None (mkState h' (visited s) (sink s +:+ front +:+ " />" +:+ lineEnd e)))
  /\ (forall (r : option error) (s' : State string),
        encode bufferWrite Prefix recursionLimit (S fuel) e el parent s = Ret r s' ->
        sink s' <> sink s +:+ front +:+ ">"
                     +:+ "</" +:+ Prefix (ElScope E) (Name (StartElement E)) +:+ ">"
                     +:+ lineEnd e).
Proof.
  intros Hle Hnin HE HP Hsrc Hnil front.
  destruct (leaf_forms fuel e el parent s E P src Hle Hnin HE HP Hsrc Hnil)
    as (Hself & Hcont).
  split.
  - intros Hc. apply Hself. now destruct Hc as [-> | ->].
  - intros r s' Hrun Heq.
    destruct (Nat.eq_dec (lenBytes (Content E)) 0) as [Hz|Hnz].
    + destruct (Hself Hz) as [h' Hrun']. rewrite Hrun' in Hrun.
      injection Hrun as _ <-. cbn [sink] in Heq. fold front in Heq.
      do 2 apply (inj (String.app _)) in Heq. discriminate Heq.
    + destruct (Hcont ltac:(lia)) as [h' Hrun']. rewrite Hrun' in Hrun.
      injection Hrun as _ <-. cbn [sink] in Heq. fold front in Heq.
      do 3 apply (inj (String.app _)) in Heq.
      apply append_eq_self_inv in Heq. apply (proj1 (encodeAll_empty_iff _)) in Heq.
      apply Hnz. now rewrite lenBytes_stringOfBytes, Heq.
Qed.

End Leaf.

Lemma MarshalIndent_module_scenarios_witness :
  output (MarshalIndent localPrefix 3 moduleAttrHeap 0 "" "  ")
  = Some ("<module name=" +:+ quoted "&lt;" +:+ " />" +:+ newline)
  /\ output (MarshalIndent localPrefix 3 moduleContentHeap 0 "" "  ")
     = Some ("<module>&lt;&gt;</module>" +:+ newline).
Proof.
  split.
  - apply (proj1 (MarshalIndent_module_scenarios localPrefix 3 moduleAttrHeap 0 _
                    eq_refl eq_refl eq_refl eq_refl) (mkName "" "name"));
      reflexivity.
  - apply (proj2 (MarshalIndent_module_scenarios localPrefix 3 moduleContentHeap 0 _
                    eq_refl eq_refl eq_refl eq_refl));
      reflexivity.
Defined.

Lemma extends_preserved (h h' : Heap) : extends h h' -> preserved h h'.
Proof.
  intros Hx. split.
  - intros p E. now apply extends_lookup_elem.
  - intros a arr. now apply extends_lookup_array.
Qed.

Lemma agreeElement_refl (E : Element) : agreeElement E E.
Proof. repeat split. Qed.

Lemma similar_of_extends (h h' : Heap) :
  wfHeap h -> extends h h' ->
  similar (length (elems h)) (length (arrays h)) h h'.
Proof.
  intros Hwf Hx. split.
  - intros p Hp. destruct (lookup_lt_is_Some_2 _ _ Hp) as [E HE].
    exists E, E. destruct (wf_lookup _ _ _ Hwf HE) as [Hs Hc].
    repeat split; try assumption.
    eapply extends_lookup_elem; eassumption.
  - intros a Ha. destruct (lookup_lt_is_Some_2 _ _ Ha) as [arr Harr].
    exists arr. split; [assumption|]. eapply extends_lookup_array; eassumption.
Qed.

Lemma wfHeap_setContentAt (h : Heap) (p : addr) (c : option string) :
  wfHeap h -> wfHeap (setContentAt h p c).
Proof.
  intros Hwf. unfold wfHeap, setContentAt. cbn [elems].
  apply Forall_lookup. intros i E' HE'.
  rewrite list_lookup_alter in HE'.
  destruct (decide (i = p)) as [->|Hne].
  - rewrite decide_True in HE' by reflexivity.
    destruct (elems h !! p) as [E|] eqn:HE; [|discriminate].
    cbn in HE'. injection HE' as <-.
    destruct (wf_lookup _ _ _ Hwf HE) as [Hs Hc].
    split; cbn; [exact Hs|]. now rewrite length_alter.
  - rewrite decide_False in HE' by congruence.
    destruct (wf_lookup _ _ _ Hwf HE') as [Hs Hc].
    split; cbn; [exact Hs|]. now rewrite length_alter.
Qed.

Lemma similar_setContentAt (h : Heap) (p : addr) (E : Element) (c : option string) :
  wfHeap h -> elems h !! p = Some E -> Children E <> [] ->
  similar (length (elems h)) (length (arrays h)) h (setContentAt h p c).
Proof.
  intros Hwf HE Hch. split.
  - intros i Hi. destruct (lookup_lt_is_Some_2 _ _ Hi) as [Ei HEi].
    destruct (wf_lookup _ _ _ Hwf HEi) as [Hs Hc].
    destruct (decide (i = p)) as [->|Hne].
    + exists E, (setContent c E). rewrite HE in HEi. injection HEi as <-.
      split; [exact HE|]. split.
      { unfold setContentAt. cbn. rewrite list_lookup_alter, decide_True, HE by reflexivity.
        reflexivity. }
      split; [|split; assumption].
      repeat split. intros Hnil. contradiction.
    + exists Ei, Ei. split; [exact HEi|]. split.
      { unfold setContentAt. cbn. rewrite list_lookup_alter, decide_False by congruence.
        exact HEi. }
      split; [apply agreeElement_refl|]. split; assumption.
  - intros a Ha. destruct (lookup_lt_is_Some_2 _ _ Ha) as [arr Harr].
    exists arr. split; assumption.
Qed.

(** ** Encoding twice, and on a heap with other contents *)

Section Repeat.
Variable Prefix : Scope -> xmlName -> string.
Variable recursionLimit : nat.

(** An encoding from the root returns. *)
Lemma encode_root_returns {W : Type} (Write : W -> string -> W * option error)
    (e : encoder) (el : addr) (s : State W) :
  wfHeap (heap s) -> el < length (elems (heap s)) -> visited s = newVisited ->
  exists (r : option error) (s' : State W),
    encode Write Prefix recursionLimit (encodeFuel recursionLimit) e el None s = Ret r s'
    /\ extends (heap s) (heap s') /\ wfHeap (heap s')
    /\ (neverFails Write -> r = None).
Proof.
  intros Hwf Hel Hv.
  pose proof (encode_ok Write Prefix recursionLimit (encodeFuel recursionLimit)
                e el None s Hwf Hel I) as Hok.
  destruct (encode _ _ _ _ _ _ _ _) as [r s'| |]; cbn in Hok.
  - exists r, s'. tauto.
  - contradiction.
  - unfold encodeFuel in Hok. destruct Hok; lia.
Qed.

Lemma buffer_encode_twice (e : encoder) (h : Heap) (el : addr) :
  wfHeap h -> el < length (elems h) ->
  exists (out : string) (h' h'' : Heap) (v v' : gset addr),
    encode bufferWrite Prefix recursionLimit (encodeFuel recursionLimit) e el None
           (mkState h newVisited "") = Ret None (mkState h' v out)
    /\ extends h h'
    /\ encode bufferWrite Prefix recursionLimit (encodeFuel recursionLimit) e el None
              (mkState h' newVisited "") = Ret None (mkState h'' v' out).
Proof.
  intros Hwf Hel.
  destruct (encode_root_returns bufferWrite e el (mkState h newVisited "") Hwf Hel eq_refl)
    as (r & s1 & Hrun1 & Hx & Hwf1 & Hnf).
  rewrite (Hnf bufferWrite_never) in Hrun1. cbn [heap] in Hx.
  assert (Hel1 : el < length (elems (heap s1))).
  { destruct (extends_length _ _ Hx). lia. }
  destruct (encode_root_returns bufferWrite e el (mkState (heap s1) newVisited "") Hwf1 Hel1 eq_refl)
    as (r2 & s2 & Hrun2 & _ & _ & Hnf2).
  rewrite (Hnf2 bufferWrite_never) in Hrun2.
  pose proof (encode_sim bufferWrite Prefix recursionLimit
                (length (elems h)) (length (arrays h)) (encodeFuel recursionLimit) e
                el None (mkState h newVisited "") (mkState (heap s1) newVisited "")
                (similar_of_extends h (heap s1) Hwf Hx) Hwf Hwf1 eq_refl eq_refl Hel I)
    as Hobs.
  rewrite Hrun1, Hrun2 in Hobs. cbn in Hobs. destruct Hobs as (_ & Hv & Hs).
  destruct s1 as [h1 v1 w1], s2 as [h2 v2 w2]. cbn in *. subst w2.
  exists w1, h1, h2, v1, v2. auto.
Qed.

(** C8: encoding a well-formed tree returns and leaves every element and
    every attribute array of the heap as it was, whichever entry point
    and writer are used; encoding it again to a buffer returns the same
    bytes. *)
Theorem encoding_is_read_only_and_repeatable (h : Heap) (el : addr) :
  wfHeap h -> el < length (elems h) ->
  (exists (out : string) (h' : Heap),
      Marshal Prefix recursionLimit h el = Ret out h'
      /\ preserved h h'
      /\ output (Marshal Prefix recursionLimit h' el) = Some out)
  /\ (forall pre ind : string,
        exists (out : string) (h' : Heap),
          MarshalIndent Prefix recursionLimit h el pre ind = Ret out h'
          /\ preserved h h'
          /\ output (MarshalIndent Prefix recursionLimit h' el pre ind) = Some out)
  /\ (forall (W : Type) (Write : W -> string -> W * option error) (s : State W),
        heap s = h ->
        exists (r : option error) (s' : State W),
          Encode Write Prefix recursionLimit el s = Ret r s'
          /\ preserved h (heap s')).
Proof.
  intros Hwf Hel. split; [|split].
  - destruct (buffer_encode_twice (mkEncoder "" "" false) h el Hwf Hel)
      as (out & h' & h'' & v & v' & Hrun1 & Hx & Hrun2).
    exists out, h'. unfold Marshal, Encode. cbn [heap sink].
    rewrite Hrun1, Hrun2. cbn. split; [reflexivity|]. split; [|reflexivity].
    now apply extends_preserved.
  - intros pre ind.
    destruct (buffer_encode_twice (mkEncoder pre ind true) h el Hwf Hel)
      as (out & h' & h'' & v & v' & Hrun1 & Hx & Hrun2).
    exists out, h'. unfold MarshalIndent.
    rewrite Hrun1, Hrun2. cbn. split; [reflexivity|]. split; [|reflexivity].
    now apply extends_preserved.
  - intros W Write s <-.
    destruct (encode_root_returns Write (mkEncoder "" "" false) el
                (mkState (heap s) newVisited (sink s)) Hwf Hel eq_refl)
      as (r & s' & Hrun & Hx & _).
    exists r, s'. split; [exact Hrun|]. now apply extends_preserved.
Qed.

Lemma buffer_encode_setContent (e : encoder) (h : Heap) (p : addr) (E : Element)
    (c : option string) (root : addr) :
  wfHeap h -> elems h !! p = Some E -> Children E <> [] -> root < length (elems h) ->
  sameObs
    (encode bufferWrite Prefix recursionLimit (encodeFuel recursionLimit) e root None
       (mkState (setContentAt h p c) newVisited ""))
    (encode bufferWrite Prefix recursionLimit (encodeFuel recursionLimit) e root None
       (mkState h newVisited "")).
Proof.
  intros Hwf HE Hch Hroot.
  pose proof (encode_sim bufferWrite Prefix recursionLimit
                (length (elems h)) (length (arrays h)) (encodeFuel recursionLimit) e
                root None (mkState h newVisited "") (mkState (setContentAt h p c) newVisited "")
                (similar_setContentAt h p E c Hwf HE Hch) Hwf
                (wfHeap_setContentAt h p c Hwf) eq_refl eq_refl Hroot I) as Hobs.
  destruct (encode _ _ _ _ _ _ _ (mkState h _ _)) as [r1 s1| |];
    destruct (encode _ _ _ _ _ _ _ (mkState (setContentAt _ _ _) _ _)) as [r2 s2| |];
    cbn in Hobs |- *; try contradiction; try exact I.
  destruct Hobs as (-> & -> & ->). auto.
Qed.

Lemma output_of_sameObs (o1 o2 : outcome (State string) (option error)) :
  sameObs o1 o2 ->
  output (match o1 with
          | Ret None s => Ret (sink s) (heap s)
          | Ret (Some _) _ => Panic
          | Panic => Panic
          | Timeout => Timeout
          end)
  = output (match o2 with
            | Ret None s => Ret (sink s) (heap s)
            | Ret (Some _) _ => Panic
            | Panic => Panic
            | Timeout => Timeout
            end).
Proof.
  destruct o1 as [r1 s1| |], o2 as [r2 s2| |]; cbn; try contradiction; try reflexivity.
  intros (-> & _ & Hs). destruct r2; cbn; [reflexivity|]. now rewrite Hs.
Qed.

Lemma encodeChildren_keeps {W : Type} (Write : W -> string -> W * option error)
    (fuel : nat) (e : encoder) (el : addr) (E : Element) (s1 s2 : State W)
    (r : option error) :
  wfHeap (heap s1) -> elems (heap s1) !! el = Some E -> el ∉ visited s1 ->
  encodeChildren (encode Write Prefix recursionLimit fuel e) el 0 (length (Children E)) s1
  = Ret r s2 ->
  elems (heap s2) !! el = Some E.
Proof.
  intros Hwf HE Hnin Hloop.
  pose proof (encodeChildren_ok Write recursionLimit fuel
                (encode Write Prefix recursionLimit fuel e) el E
                (fun child s' Hw Hc Hl =>
                   encode_ok Write Prefix recursionLimit fuel e child (Some el) s' Hw Hc Hl)
                (length (Children E)) 0 s1 Hwf HE eq_refl Hnin) as Hok.
  rewrite Hloop in Hok. destruct Hok as (Hx & _).
  eapply extends_lookup_elem; eassumption.
Qed.

Lemma encode_parent_buffer (fuel : nat) (e : encoder) (el : addr) (parent : option addr)
    (s : State string) (E : Element) (P : option Element) (src : list xmlAttr) :
  wfHeap (heap s) ->
  size (visited s) <= recursionLimit ->
  el ∉ visited s ->
  elems (heap s) !! el = Some E ->
  parentElem (heap s) parent = Some P ->
  sliceAttrs (arrays (heap s)) (Attr (StartElement E)) = Some src ->
  Children E <> [] ->
  encode bufferWrite Prefix recursionLimit (S fuel) e el parent s
  = match encodeChildren (encode bufferWrite Prefix recursionLimit fuel e) el 0
            (length (Children E))
            (mkState (mkHeap (elems (heap s) ++ [escapedCopy E (length (arrays (heap s)))])
                             (arrays (heap s) ++ [map escapeAttr src]))
                     (visited s)
                     (sink s +:+ openTagFront Prefix e (scopeFor P E) (size (visited s)) E src
                        +:+ ">" +:+ lineEnd e)) with
    | Ret None s2 =>
        Ret None (mkState (heap s2) (visited s2)
                    (sink s2 +:+ closeTagBytes Prefix e (size (visited s2)) E))
    | Ret (Some y) s2 => Ret (Some y) s2
    | Panic => Panic
    | Timeout => Timeout
    end.
Proof.
  intros Hwf Hle Hnin HE HP Hsrc Hch.
  rewrite (encode_unfold bufferWrite Prefix recursionLimit fuel e el parent s E P src
             Hle Hnin HE HP Hsrc).
  cbv zeta.
  destruct (openTagResult_ok bufferWrite Prefix e (scopeFor P E) (size (visited s)) el E src s
              Hwf HE) as (Hx1 & Hwf1 & Hv1).
  rewrite openTagResult_buffer in Hx1, Hwf1, Hv1 |- *. cbn [fst snd] in *.
  assert (Hlen : Nat.eqb (length (Children E)) 0 = false).
  { apply Nat.eqb_neq. intros H0. now apply nil_length_inv in H0. }
  rewrite Hlen, openTagBytes_front.
  unfold closeOfStart, openTagBreaks, lineEnd. rewrite Hlen.
  cbn [negb orb]. rewrite andb_true_r.
  destruct (encodeChildren _ _ _ _ _) as [[y|] s2| |] eqn:Hloop; try reflexivity.
  assert (HE2 : elems (heap s2) !! el = Some E).
  { eapply (encodeChildren_keeps bufferWrite fuel e el E _ s2 None); [| | |exact Hloop].
    - exact Hwf1.
    - cbn. now apply lookup_app_l_Some.
    - exact Hnin. }
  rewrite (encodeCloseTag_run bufferWrite Prefix e el _ s2 E HE2).
  now rewrite closeTagResult_buffer.
Qed.

(** C6, as the code has it: an encoding of a well-formed heap returns,
    whatever the cycles and the depth; beyond the recursion limit [encode]
    returns nil and writes nothing, also for a node that is in [visited];
    within the limit a node that is in [visited] gets the marker written
    in its place, and nil is returned. *)
Theorem encode_terminates_on_cycles_and_depth {W : Type}
    (Write : W -> string -> W * option error) (e : encoder) (el : addr)
    (parent : option addr) (s : State W) :
  wfHeap (heap s) -> el < length (elems (heap s)) -> validParent (heap s) parent ->
  (forall fuel : nat,
      1 <= fuel -> recursionLimit + 2 <= fuel + size (visited s) ->
      exists (r : option error) (s' : State W),
        encode Write Prefix recursionLimit fuel e el parent s = Ret r s'
        /\ (neverFails Write -> r = None))
  /\ (exists (r : option error) (s' : State W),
        Encode Write Prefix recursionLimit el s = Ret r s')
  /\ (forall fuel : nat,
        recursionLimit < size (visited s) ->
        encode Write Prefix recursionLimit (S fuel) e el parent s = Ret None s)
  /\ (forall fuel : nat,
        size (visited s) <= recursionLimit -> el ∈ visited s ->
        encode Write Prefix recursionLimit (S fuel) e el parent s
        = Ret None (mkState (heap s) (visited s) (fst (Write (sink s) cycleMarker)))).
Proof.
  intros Hwf Hel Hpar. split; [|split; [|split]].
  - intros fuel H1 Hfuel.
    pose proof (encode_ok Write Prefix recursionLimit fuel e el parent s Hwf Hel Hpar) as Hok.
    destruct (encode _ _ _ _ _ _ _ _) as [r s'| |]; cbn in Hok.
    + exists r, s'. split; [reflexivity|]. apply Hok.
    + contradiction.
    + destruct Hok; lia.
  - destruct (encode_root_returns Write (mkEncoder "" "" false) el
                (mkState (heap s) newVisited (sink s)) Hwf Hel eq_refl)
      as (r & s' & Hrun & _).
    now exists r, s'.
  - intros fuel Hgt. now apply encode_over_limit.
  - intros fuel Hle Hin. now apply encode_cycle.
Qed.

End Repeat.

(** ** Bytes already in the buffer, and the bytes of the children *)

Lemma framed_ret {A : Type} (a : A) : framed (ret a).
Proof. intros w s. reflexivity. Qed.

Lemma framed_panic {A : Type} : framed (@panic string A).
Proof. intros w s. reflexivity. Qed.

Lemma framed_timeout {A : Type} : framed (@timeout string A).
Proof. intros w s. reflexivity. Qed.

Lemma framed_bind {A B : Type} (m : M string A) (k : A -> M string B) :
  framed m -> (forall a : A, framed (k a)) -> framed (bind m k).
Proof.
  intros Hm Hk w s. unfold bind. rewrite Hm.
  destruct (m s) as [a s'| |]; cbn [prependOut]; [apply Hk | reflexivity | reflexivity].
Qed.

Lemma framed_loadElem (p : addr) : framed (loadElem p).
Proof. intros w s. unfold loadElem. cbn [prepend heap]. now destruct (_ !! _). Qed.

Lemma framed_modifyElem (p : addr) (f : Element -> Element) : framed (modifyElem p f).
Proof. intros w s. unfold modifyElem. cbn [prepend heap]. now destruct (_ !! _). Qed.

Lemma framed_newElement : framed newElement.
Proof. intros w s. reflexivity. Qed.

Lemma framed_makeAttrs (n : nat) : framed (makeAttrs n).
Proof. intros w s. reflexivity. Qed.

Lemma framed_lenAttrs (sl : attrSlice) : framed (lenAttrs sl).
Proof.
  destruct sl as [a|]; [|apply framed_ret].
  intros w s. cbn [lenAttrs prepend heap]. now destruct (_ !! _).
Qed.

Lemma framed_indexAttr (sl : attrSlice) (i : nat) : framed (indexAttr sl i).
Proof.
  destruct sl as [a|]; [|apply framed_panic].
  intros w s. cbn [indexAttr prepend heap].
  destruct (arrays (heap s) !! a) as [arr|]; [|reflexivity]. now destruct (arr !! i).
Qed.

Lemma framed_modifyAttr (sl : attrSlice) (i : nat) (f : xmlAttr -> xmlAttr) :
  framed (modifyAttr sl i f).
Proof.
  destruct sl as [a|]; [|apply framed_panic].
  intros w s. cbn [modifyAttr prepend heap].
  destruct (arrays (heap s) !! a) as [arr|]; [|reflexivity]. now destruct (arr !! i).
Qed.

Lemma framed_rangeAttrs (sl : attrSlice) : framed (rangeAttrs sl).
Proof.
  destruct sl as [a|]; [|apply framed_ret].
  intros w s. cbn [rangeAttrs prepend heap]. now destruct (_ !! _).
Qed.

Lemma framed_lenVisited : framed lenVisited.
Proof. intros w s. reflexivity. Qed.

Lemma framed_isVisited (el : addr) : framed (isVisited el).
Proof. intros w s. reflexivity. Qed.

Lemma framed_markVisited (el : addr) : framed (markVisited el).
Proof. intros w s. reflexivity. Qed.

Lemma framed_deleteVisited (el : addr) : framed (deleteVisited el).
Proof. intros w s. reflexivity. Qed.

Lemma framed_write (p : string) : framed (write bufferWrite p).
Proof.
  intros w s. unfold write, bufferWrite, prependOut, prepend. cbn [sink heap visited].
  now rewrite append_assoc.
Qed.

Lemma framed_diffScope (parent : option addr) (child : addr) :
  framed (diffScope parent child).
Proof.
  destruct parent as [p|]; unfold diffScope;
    repeat (first [apply framed_bind; [|intros ?] | apply framed_loadElem | apply framed_ret]).
Qed.

Create HintDb framed.

#[local] Hint Resolve framed_ret framed_panic framed_timeout framed_loadElem framed_modifyElem
  framed_newElement framed_makeAttrs framed_lenAttrs framed_indexAttr framed_modifyAttr
  framed_rangeAttrs framed_lenVisited framed_isVisited framed_markVisited
  framed_deleteVisited framed_write framed_diffScope : framed.

Ltac framed_step :=
  first
    [ apply framed_bind; [|intros ?]
    | solve [auto with framed]
    | match goal with
      | |- framed (if ?b then _ else _) => destruct b
      | |- framed (match ?x with _ => _ end) => destruct x
      | |- framed (let (_, _) := ?x in _) => destruct x
      end ].

Lemma framed_forRange (body : nat -> M string unit) :
  (forall i : nat, framed (body i)) -> forall n i : nat, framed (forRange i n body).
Proof.
  intros Hb. induction n as [|n IH]; intros i; cbn [forRange]; [apply framed_ret|].
  apply framed_bind; [apply Hb | intros _; apply IH].
Qed.

Lemma framed_emit (chunks : list string) : framed (emit bufferWrite chunks).
Proof.
  induction chunks as [|c chunks IH]; cbn [emit]; [apply framed_ret|].
  apply framed_bind; [apply framed_write|]. intros [y|]; [apply framed_ret | exact IH].
Qed.

Section Framed.
Variable Prefix : Scope -> xmlName -> string.
Variable recursionLimit : nat.

Lemma framed_executeStart (tagEl : addr) (NS : list xmlName) :
  framed (executeStart bufferWrite Prefix tagEl NS).
Proof. unfold executeStart. repeat first [apply framed_emit | framed_step]. Qed.

Lemma framed_executeEnd (el : addr) : framed (executeEnd bufferWrite Prefix el).
Proof. unfold executeEnd. repeat first [apply framed_emit | framed_step]. Qed.

Lemma framed_escapeAttrs (attrs : attrSlice) (k i : nat) :
  framed (@escapeAttrs string attrs i k).
Proof.
  revert i. induction k as [|k IH]; intros i; cbn [escapeAttrs]; [apply framed_ret|].
  apply framed_bind; [apply framed_indexAttr|]. intros x.
  destruct (xmlEncodeString (Value x)) as [mStr [y|]]; [apply framed_ret|].
  apply framed_bind; [apply framed_modifyAttr | intros _; apply IH].
Qed.

Lemma framed_encodeOpenTag (e : encoder) (el : addr) (scope : Scope) (depth : nat) :
  framed (encodeOpenTag bufferWrite Prefix e el scope depth).
Proof.
  unfold encodeOpenTag.
  repeat first
    [ apply framed_forRange; intros ?
    | apply framed_escapeAttrs
    | apply framed_executeStart
    | framed_step ].
Qed.

Lemma framed_encodeCloseTag (e : encoder) (el : addr) (depth : nat) :
  framed (encodeCloseTag bufferWrite Prefix e el depth).
Proof.
  unfold encodeCloseTag.
  repeat first
    [ apply framed_forRange; intros ?
    | apply framed_executeEnd
    | framed_step ].
Qed.

Lemma framed_encodeChildren (enc : addr -> option addr -> M string (option error))
    (el : addr) :
  (forall (c : addr) (p : option addr), framed (enc c p)) ->
  forall k i : nat, framed (encodeChildren enc el i k).
Proof.
  intros Henc. induction k as [|k IH]; intros i; cbn [encodeChildren]; [apply framed_ret|].
  apply framed_bind; [apply framed_markVisited|]. intros _.
  apply framed_bind; [apply framed_loadElem|]. intros E.
  destruct (Children E !! i) as [child|]; [|apply framed_panic].
  apply framed_bind; [apply Henc|]. intros [y|]; [apply framed_ret|].
  apply framed_bind; [apply framed_deleteVisited | intros _; apply IH].
Qed.

Lemma framed_encode (fuel : nat) :
  forall (e : encoder) (el : addr) (parent : option addr),
    framed (encode bufferWrite Prefix recursionLimit fuel e el parent).
Proof.
  induction fuel as [|fuel IH]; intros e el parent; cbn [encode]; [apply framed_timeout|].
  repeat first
    [ apply framed_encodeOpenTag
    | apply framed_encodeCloseTag
    | apply framed_encodeChildren; intros ? ?; apply IH
    | framed_step ].
Qed.

End Framed.

Lemma prepend_empty (s : State string) :
  prepend (sink s) (mkState (heap s) (visited s) "") = s.
Proof. destruct s as [h v w]. unfold prepend. cbn. now rewrite append_nil_r. Qed.

Lemma framed_appends {A : Type} (m : M string A) (s s' : State string) (a : A) :
  framed m -> m s = Ret a s' ->
  exists u : State string,
    m (mkState (heap s) (visited s) "") = Ret a u
    /\ heap s' = heap u /\ visited s' = visited u /\ sink s' = sink s +:+ sink u.
Proof.
  intros Hm Hrun. rewrite <- (prepend_empty s) in Hrun. rewrite Hm in Hrun.
  destruct (m _) as [a' u| |]; cbn in Hrun; try discriminate.
  injection Hrun as -> <-. exists u. auto.
Qed.

Section ChildrenBytes.
Variable Prefix : Scope -> xmlName -> string.
Variable recursionLimit : nat.

(** The loop over the children writes, one after the other and in the
    order of [Children], the bytes that [encode] writes for each child. *)
Lemma encodeChildren_bytes (fuel : nat) (e : encoder) (h : Heap) (p : addr) (E : Element)
    (vis : gset addr) :
  wfHeap h -> elems h !! p = Some E -> p ∉ vis ->
  recursionLimit + 2 <= fuel + S (size vis) -> 1 <= fuel ->
  forall (k i : nat) (s : State string),
    wfHeap (heap s) -> extends h (heap s) -> visited s = vis ->
    i + k = length (Children E) ->
    exists (s' : State string) (outs : list string),
      encodeChildren (encode bufferWrite Prefix recursionLimit fuel e) p i k s = Ret None s'
      /\ Forall2 (fun c out =>
                    bytesAt Prefix recursionLimit fuel e h ({[p]} ∪ vis) (Some p) c = Some out)
                 (drop i (Children E)) outs
      /\ sink s' = sink s +:+ concatChunks outs
      /\ visited s' = vis.
Proof.
  intros Hwf0 HE0 Hnin Hfuel Hpos.
  assert (Hsz : size ({[p]} ∪ vis) = S (size vis)).
  { rewrite size_union by set_solver. now rewrite size_singleton. }
  assert (Hp0 : p < length (elems h)) by (eapply lookup_lt_Some; exact HE0).
  destruct (wf_lookup _ _ _ Hwf0 HE0) as [_ Hkids].
  induction k as [|k IH]; intros i s Hwf Hx Hv Hik.
  - exists s, []. cbn [encodeChildren]. split; [reflexivity|].
    rewrite drop_ge by lia. split; [constructor|].
    split; [cbn; now rewrite append_nil_r | exact Hv].
  - assert (HE : elems (heap s) !! p = Some E) by (eapply extends_lookup_elem; eassumption).
    cbn [encodeChildren].
    erewrite bind_ret_run; [| reflexivity].
    erewrite bind_ret_run; [| apply loadElem_run; exact HE].
    destruct (lookup_lt_is_Some_2 (Children E) i ltac:(lia)) as [c Hc].
    rewrite Hc.
    assert (Hc0 : c < length (elems h)).
    { eapply (Forall_lookup_1 _ _ _ _ Hkids Hc). }
    destruct (extends_length _ _ Hx) as [HlE _].
    set (t := mkState (heap s) ({[p]} ∪ visited s) (sink s)).
    set (t0 := mkState h ({[p]} ∪ vis) (sink s)).
    pose proof (encode_ok bufferWrite Prefix recursionLimit fuel e c (Some p) t
                  Hwf ltac:(cbn; lia) ltac:(cbn; lia)) as Hok.
    pose proof (encode_sim bufferWrite Prefix recursionLimit
                  (length (elems h)) (length (arrays h)) fuel e c (Some p) t0 t
                  (similar_of_extends h (heap s) Hwf0 Hx) Hwf0 Hwf
                  ltac:(cbn; now rewrite Hv) eq_refl Hc0 Hp0) as Hobs.
    unfold bind at 1. fold t.
    destruct (encode bufferWrite Prefix recursionLimit fuel e c (Some p) t)
      as [r u| |] eqn:Hrun; cbn [okRun] in Hok.
    2:{ contradiction. }
    2:{ cbn [visited t] in Hok. rewrite Hv, Hsz in Hok. lia. }
    destruct Hok as (Hxu & Hwfu & Hvu & Hnf).
    rewrite (Hnf bufferWrite_never) in *. specialize (Hvu eq_refl).
    destruct (encode bufferWrite Prefix recursionLimit fuel e c (Some p) t0)
      as [r0 u0| |] eqn:Hrun0; cbn [sameObs] in Hobs; try contradiction.
    destruct Hobs as (-> & _ & Hs0).
    destruct (framed_appends _ t0 u0 None (framed_encode Prefix recursionLimit fuel e c (Some p))
                Hrun0) as (u00 & Hrun00 & _ & _ & Hs00).
    cbn [heap visited sink t0] in Hrun00, Hs00.
    erewrite bind_ret_run; [| reflexivity].
    destruct (IH (S i) (mkState (heap u) (visited u ∖ {[p]}) (sink u)))
      as (s' & outs & Hloop & Hall & Hsink & Hv').
    + exact Hwfu.
    + cbn [heap]. eapply extends_trans; [exact Hx | exact Hxu].
    + cbn [visited]. rewrite Hvu. cbn [visited t]. rewrite Hv. set_solver.
    + lia.
    + exists s', (sink u00 :: outs). split; [exact Hloop|].
      split; [|split; [|exact Hv']].
      * rewrite (drop_S _ c) by exact Hc. constructor; [|exact Hall].
        unfold bytesAt. now rewrite Hrun00.
      * rewrite Hsink. cbn [sink]. rewrite <- Hs0, Hs00.
        unfold concatChunks. cbn [fold_right]. now rewrite append_assoc.
Qed.

(** An element with children, on a buffer: the open tag, the bytes of the
    children in order, the close tag *)
Lemma encode_parent_bytes (fuel : nat) (e : encoder) (h : Heap) (p : addr) (E : Element)
    (parent : option addr) (vis : gset addr) (w : string) (P : option Element)
    (src : list xmlAttr) :
  wfHeap h -> elems h !! p = Some E -> Children E <> [] ->
  size vis <= recursionLimit -> p ∉ vis ->
  parentElem h parent = Some P ->
  sliceAttrs (arrays h) (Attr (StartElement E)) = Some src ->
  recursionLimit + 2 <= S fuel + size vis ->
  exists (s' : State string) (outs : list string),
    encode bufferWrite Prefix recursionLimit (S fuel) e p parent (mkState h vis w)
    = Ret None s'
    /\ Forall2 (fun c out =>
                  bytesAt Prefix recursionLimit fuel e h ({[p]} ∪ vis) (Some p) c = Some out)
               (Children E) outs
    /\ sink s' = w +:+ openTagFront Prefix e (scopeFor P E) (size vis) E src
                   +:+ ">" +:+ lineEnd e
                   +:+ concatChunks outs
                   +:+ closeTagBytes Prefix e (size vis) E.
Proof.
  intros Hwf HE Hch Hle Hnin HP Hsrc Hfuel.
  rewrite (encode_parent_buffer Prefix recursionLimit fuel e p parent (mkState h vis w) E P src
             Hwf Hle Hnin HE HP Hsrc Hch).
  cbn [heap visited sink].
  destruct (openTagResult_ok bufferWrite Prefix e (scopeFor P E) (size vis) p E src
              (mkState h vis w) Hwf HE) as (Hx1 & Hwf1 & _).
  rewrite openTagResult_buffer in Hx1, Hwf1. cbn [fst snd heap visited sink] in Hx1, Hwf1.
  set (s1 := mkState _ vis _).
  destruct (encodeChildren_bytes fuel e h p E vis Hwf HE Hnin ltac:(lia) ltac:(lia)
              (length (Children E)) 0 s1 Hwf1 Hx1 eq_refl eq_refl)
    as (s2 & outs & Hloop & Hall & Hsink & Hv).
  rewrite Hloop. eexists. exists outs. split; [reflexivity|].
  split; [exact Hall|]. cbn [sink]. rewrite Hsink, Hv. unfold s1. cbn [sink].
  now rewrite !append_assoc.
Qed.

(** What [encode] writes for an element that passes its two guards begins
    with the open tag of the element. *)
Lemma encode_begins_with_open_tag (fuel : nat) (e : encoder) (el : addr)
    (parent : option addr) (s s' : State string) (r : option error) (E : Element)
    (P : option Element) (src : list xmlAttr) :
  size (visited s) <= recursionLimit ->
  el ∉ visited s ->
  elems (heap s) !! el = Some E ->
  parentElem (heap s) parent = Some P ->
  sliceAttrs (arrays (heap s)) (Attr (StartElement E)) = Some src ->
  encode bufferWrite Prefix recursionLimit (S fuel) e el parent s = Ret r s' ->
  exists rest : string,
    sink s' = sink s +:+ openTagBytes Prefix e (scopeFor P E) (size (visited s)) E src
                +:+ rest.
Proof.
  intros Hle Hnin HE HP Hsrc Hrun.
  rewrite (encode_unfold bufferWrite Prefix recursionLimit fuel e el parent s E P src
             Hle Hnin HE HP Hsrc) in Hrun.
  cbv zeta in Hrun. rewrite openTagResult_buffer in Hrun. cbn [fst snd] in Hrun.
  destruct (Nat.eqb (length (Children E)) 0).
  - unfold leafResult in Hrun. cbn [heap visited sink] in Hrun.
    destruct (Nat.ltb 0 (lenBytes (Content E))).
    + rewrite closeTagResult_buffer in Hrun. cbn [fst snd heap visited sink bufferWrite] in Hrun.
      injection Hrun as _ <-. cbn [sink]. eexists. rewrite !append_assoc. reflexivity.
    + cbn [fst snd] in Hrun. injection Hrun as _ <-. cbn [sink].
      exists "". now rewrite append_nil_r.
  - destruct (encodeChildren _ _ _ _ _) as [[y|] s2| |] eqn:Hloop; try discriminate.
    + injection Hrun as _ <-.
      destruct (framed_appends _ _ _ _
                  (framed_encodeChildren _ el
                     (fun c q => framed_encode Prefix recursionLimit fuel e c q) _ _) Hloop)
        as (u & _ & _ & _ & Hs).
      cbn [sink] in Hs. exists (sink u). rewrite Hs. now rewrite !append_assoc.
    + destruct (framed_appends _ _ _ _
                  (framed_encodeChildren _ el
                     (fun c q => framed_encode Prefix recursionLimit fuel e c q) _ _) Hloop)
        as (u & _ & _ & _ & Hs).
      destruct (framed_appends _ _ _ _ (framed_encodeCloseTag Prefix e el _) Hrun)
        as (u' & _ & _ & _ & Hs').
      cbn [sink] in Hs. exists (sink u +:+ sink u'). rewrite Hs', Hs.
      now rewrite !append_assoc.
Qed.

Lemma concatChunks_cons (c : string) (l : list string) :
  concatChunks (c :: l) = c +:+ concatChunks l.
Proof. reflexivity. Qed.

Lemma concatChunks_nil : concatChunks [] = "".
Proof. reflexivity. Qed.

(** The bytes of an open tag that declares no namespace, and of one that
    declares the namespace [d] *)
Lemma openTagBytes_scope_nil (e : encoder) (depth : nat) (E : Element) (src : list xmlAttr) :
  openTagBytes Prefix e (mkScope []) depth E src
  = (if pretty e then repeatString (indent e) depth else "")
    +:+ "<" +:+ Prefix (ElScope E) (Name (StartElement E))
    +:+ concatChunks (concat (map (attrChunks (Prefix (ElScope E))) (map escapeAttr src)))
    +:+ closeOfStart (Children E) (Some (encodeAll (stringOfBytes (Content E))))
    +:+ (if openTagBreaks e E then newline else "").
Proof.
  unfold openTagBytes, startChunks. cbn [ns map concat].
  repeat rewrite ?concatChunks_app, ?concatChunks_cons, ?concatChunks_nil,
    ?append_nil_r, ?append_assoc.
  reflexivity.
Qed.

Lemma openTagBytes_scope_one (e : encoder) (depth : nat) (E : Element) (src : list xmlAttr)
    (d : xmlName) :
  openTagBytes Prefix e (mkScope [d]) depth E src
  = (if pretty e then repeatString (indent e) depth else "")
    +:+ "<" +:+ Prefix (ElScope E) (Name (StartElement E))
    +:+ concatChunks (concat (map (attrChunks (Prefix (ElScope E))) (map escapeAttr src)))
    +:+ (" xmlns" +:+ (if decide (Local d = "") then "" else ":" +:+ Local d)
           +:+ "=" +:+ dquote +:+ Space d +:+ dquote)
    +:+ closeOfStart (Children E) (Some (encodeAll (stringOfBytes (Content E))))
    +:+ (if openTagBreaks e E then newline else "").
Proof.
  unfold openTagBytes, startChunks, nsChunks. cbn [ns map concat].
  destruct (decide (Local d = ""));
    repeat rewrite ?app_nil_r, ?concatChunks_app, ?concatChunks_cons, ?concatChunks_nil,
      ?append_nil_r, ?append_assoc;
    reflexivity.
Qed.

(** The two calls of [encode] that write the open tag of a child *)
Lemma child_open_tag (e : encoder) (child p : addr) (C P : Element) (src : list xmlAttr)
    (s : State string) :
  elems (heap s) !! child = Some C ->
  elems (heap s) !! p = Some P ->
  sliceAttrs (arrays (heap s)) (Attr (StartElement C)) = Some src ->
  exists s1 : State string,
    bind (diffScope (Some p) child)
         (fun scope => encodeOpenTag bufferWrite Prefix e child scope (size (visited s))) s
    = Ret None s1
    /\ sink s1 = sink s +:+ openTagBytes Prefix e
                              (mkScope (diffNs (ns (ElScope P)) (ns (ElScope C))))
                              (size (visited s)) C src.
Proof.
  intros HC HP Hsrc.
  erewrite bind_ret_run;
    [| apply (diffScope_run (Some p) child s C (Some P) HC); unfold parentElem; now rewrite HP].
  rewrite (encodeOpenTag_run bufferWrite Prefix e child _ _ s C src HC Hsrc).
  rewrite openTagResult_buffer. cbn [fst snd]. eexists. split; reflexivity.
Qed.

Lemma child_encode_open_tag (fuel : nat) (e : encoder) (child p : addr) (C P : Element)
    (src : list xmlAttr) (s : State string) :
  wfHeap (heap s) ->
  elems (heap s) !! child = Some C ->
  elems (heap s) !! p = Some P ->
  sliceAttrs (arrays (heap s)) (Attr (StartElement C)) = Some src ->
  size (visited s) <= recursionLimit -> child ∉ visited s ->
  recursionLimit + 2 <= S fuel + size (visited s) ->
  exists (s' : State string) (rest : string),
    encode bufferWrite Prefix recursionLimit (S fuel) e child (Some p) s = Ret None s'
    /\ sink s' = sink s +:+ openTagBytes Prefix e
                              (mkScope (diffNs (ns (ElScope P)) (ns (ElScope C))))
                              (size (visited s)) C src
                   +:+ rest.
Proof.
  intros Hwf HC HP Hsrc Hle Hnin Hfuel.
  pose proof (encode_ok bufferWrite Prefix recursionLimit (S fuel) e child (Some p) s Hwf
                ltac:(eapply lookup_lt_Some; exact HC)
                ltac:(cbn; eapply lookup_lt_Some; exact HP)) as Hok.
  destruct (encode bufferWrite Prefix recursionLimit (S fuel) e child (Some p) s)
    as [r s'| |] eqn:Hrun; cbn [okRun] in Hok; [|contradiction|lia].
  destruct Hok as (_ & _ & _ & Hnf). pose proof (Hnf bufferWrite_never) as ->.
  destruct (encode_begins_with_open_tag fuel e child (Some p) s s' None C (Some P) src
              Hle Hnin HC ltac:(unfold parentElem; now rewrite HP) Hsrc Hrun) as [rest Hs].
  exists s', rest. split; [reflexivity | exact Hs].
Qed.

(** C5: [diffScope] returns the child's whole scope for the root and, under
    a parent, the child's scope without the longest front run it shares
    with the parent's.  So the open tag that [encode] writes for a child
    with its parent's scope has no namespace declaration after its
    attributes, and the one of a child that appends the declaration [d]
    to its parent's scope has the declaration of [d] there and no
    other. *)
Theorem diffScope_common_prefix {W : Type} (s : State W) (child : addr) (C : Element) :
  elems (heap s) !! child = Some C ->
  diffScope None child s = Ret (ElScope C) s
  /\ (forall (p : addr) (P : Element),
        elems (heap s) !! p = Some P ->
        (exists k : nat,
            diffScope (Some p) child s = Ret (mkScope (drop k (ns (ElScope C)))) s
            /\ take k (ns (ElScope C)) = take k (ns (ElScope P))
            /\ k <= length (ns (ElScope P)) /\ k <= length (ns (ElScope C))
            /\ (forall x y, ns (ElScope P) !! k = Some x ->
                            ns (ElScope C) !! k = Some y -> x <> y))
        /\ (ns (ElScope C) = ns (ElScope P) ->
            diffScope (Some p) child s = Ret (mkScope []) s)
        /\ (forall d : xmlName,
              ns (ElScope C) = ns (ElScope P) ++ [d] ->
              diffScope (Some p) child s = Ret (mkScope [d]) s))
  /\ (forall (fuel : nat) (e : encoder) (p : addr) (P : Element) (vis : gset addr)
             (w : string) (src : list xmlAttr),
        wfHeap (heap s) ->
        elems (heap s) !! p = Some P ->
        sliceAttrs (arrays (heap s)) (Attr (StartElement C)) = Some src ->
        size vis <= recursionLimit -> child ∉ vis ->
        recursionLimit + 2 <= S fuel + size vis ->
        let s0 := mkState (heap s) vis w in
        let openTag :=
          bind (diffScope (Some p) child)
               (fun scope => encodeOpenTag bufferWrite Prefix e child scope (size vis)) in
        let head :=
          (if pretty e then repeatString (indent e) (size vis) else "")
          +:+ "<" +:+ Prefix (ElScope C) (Name (StartElement C))
          +:+ concatChunks (concat (map (attrChunks (Prefix (ElScope C)))
                                        (map escapeAttr src))) in
        let tail :=
          closeOfStart (Children C) (Some (encodeAll (stringOfBytes (Content C))))
          +:+ (if openTagBreaks e C then newline else "") in
        (ns (ElScope C) = ns (ElScope P) ->
         (exists s1 : State string,
             openTag s0 = Ret None s1 /\ sink s1 = w +:+ head +:+ tail)
         /\ (exists (s' : State string) (rest : string),
                encode bufferWrite Prefix recursionLimit (S fuel) e child (Some p) s0
                = Ret None s'
                /\ sink s' = w +:+ head +:+ tail +:+ rest))
        /\ (forall d : xmlName,
              ns (ElScope C) = ns (ElScope P) ++ [d] ->
              let xmlns :=
                " xmlns" +:+ (if decide (Local d = "") then "" else ":" +:+ Local d)
                +:+ "=" +:+ dquote +:+ Space d +:+ dquote in
              (exists s1 : State string,
                  openTag s0 = Ret None s1 /\ sink s1 = w +:+ head +:+ xmlns +:+ tail)
              /\ (exists (s' : State string) (rest : string),
                     encode bufferWrite Prefix recursionLimit (S fuel) e child (Some p) s0
                     = Ret None s'
                     /\ sink s' = w +:+ head +:+ xmlns +:+ tail +:+ rest))).
Proof.
  intros HC. split; [|split].
  - unfold diffScope, bind, loadElem. now rewrite HC.
  - intros p P HP.
    assert (Hrun : diffScope (Some p) child s
                   = Ret (mkScope (diffNs (ns (ElScope P)) (ns (ElScope C)))) s).
    { unfold diffScope, bind, loadElem. now rewrite HC, HP. }
    split; [|split].
    + destruct (diffNs_drop (ns (ElScope P)) (ns (ElScope C)))
        as (k & Hd & Ht & Hp & Hc & Hm).
      exists k. rewrite Hrun, Hd. auto.
    + intros E. now rewrite Hrun, E, diffNs_same.
    + intros d E. now rewrite Hrun, E, diffNs_app.
  - intros fuel e p P vis w src Hwf HP Hsrc Hle Hnin Hfuel s0 openTag head tail.
    destruct (child_open_tag e child p C P src s0 HC HP Hsrc) as (s1 & Hrun1 & Hs1).
    destruct (child_encode_open_tag fuel e child p C P src s0 Hwf HC HP Hsrc Hle Hnin Hfuel)
      as (s' & rest & Hrun & Hs).
    cbn [s0 visited sink] in Hs1, Hs. fold s0 in Hrun1, Hrun. fold openTag in Hrun1.
    split.
    + intros E. rewrite E, diffNs_same, openTagBytes_scope_nil in Hs1, Hs.
      fold head tail in Hs1, Hs. split.
      * exists s1. split; [exact Hrun1|]. rewrite Hs1. unfold head.
        now rewrite ?append_assoc.
      * exists s', rest. split; [exact Hrun|]. rewrite Hs. unfold head, tail.
        now rewrite ?append_assoc.
    + intros d E xmlns. rewrite E, diffNs_app, openTagBytes_scope_one in Hs1, Hs.
      fold head tail xmlns in Hs1, Hs. split.
      * exists s1. split; [exact Hrun1|]. rewrite Hs1. unfold head, xmlns.
        now rewrite ?append_assoc.
      * exists s', rest. split; [exact Hrun|]. rewrite Hs. unfold head, tail, xmlns.
        now rewrite ?append_assoc.
Qed.

(** C9: the content of an element that has children never reaches the
    output.  Replacing it leaves the bytes of every encoding of the heap
    unchanged; and what [encode] writes for the element is its open tag,
    then for each child in the order of [Children] the bytes that [encode]
    writes for that child, then its close tag. *)
Theorem content_of_element_with_children_is_dropped (h : Heap) (p : addr) (E : Element) :
  wfHeap h -> elems h !! p = Some E -> Children E <> [] ->
  (forall (c : option string) (root : addr),
      root < length (elems h) ->
      output (Marshal Prefix recursionLimit (setContentAt h p c) root)
      = output (Marshal Prefix recursionLimit h root)
      /\ (forall pre ind : string,
            output (MarshalIndent Prefix recursionLimit (setContentAt h p c) root pre ind)
            = output (MarshalIndent Prefix recursionLimit h root pre ind)))
  /\ (forall (fuel : nat) (e : encoder) (parent : option addr) (vis : gset addr)
             (w : string) (P : option Element) (src : list xmlAttr),
        size vis <= recursionLimit -> p ∉ vis ->
        parentElem h parent = Some P ->
        sliceAttrs (arrays h) (Attr (StartElement E)) = Some src ->
        recursionLimit + 2 <= S fuel + size vis ->
        exists (s' : State string) (outs : list string),
          encode bufferWrite Prefix recursionLimit (S fuel) e p parent (mkState h vis w)
          = Ret None s'
          /\ Forall2 (fun child out =>
                        bytesAt Prefix recursionLimit fuel e h ({[p]} ∪ vis) (Some p) child
                        = Some out)
                     (Children E) outs
          /\ sink s' = w +:+ openTagFront Prefix e (scopeFor P E) (size vis) E src
                         +:+ ">" +:+ lineEnd e
                         +:+ concatChunks outs
                         +:+ closeTagBytes Prefix e (size vis) E).
Proof.
  intros Hwf HE Hch. split.
  - intros c root Hroot. split.
    + unfold Marshal, Encode. cbn [heap sink].
      apply output_of_sameObs.
      now apply (buffer_encode_setContent Prefix recursionLimit (mkEncoder "" "" false)
                   h p E c root).
    + intros pre ind. unfold MarshalIndent.
      apply output_of_sameObs.
      now apply (buffer_encode_setContent Prefix recursionLimit (mkEncoder pre ind true)
                   h p E c root).
  - intros fuel e parent vis w P src Hle Hnin HP Hsrc Hfuel.
    now apply (encode_parent_bytes fuel e h p E parent vis w P src).
Qed.

End ChildrenBytes.

(** C2: [MarshalIndent] never writes its prefix: the result is the one for
    the empty prefix, and [<module />] is printed without the prefix [>]. *)
Theorem MarshalIndent_ignores_prefix :
  (forall (Prefix : Scope -> xmlName -> string) (recursionLimit : nat) (h : Heap)
          (el : addr) (pre ind : string),
      MarshalIndent Prefix recursionLimit h el pre ind
      = MarshalIndent Prefix recursionLimit h el "" ind)
  /\ (forall recursionLimit : nat,
        output (MarshalIndent localPrefix recursionLimit moduleEmptyHeap 0 ">" "  ")
        = Some ("<module />" +:+ newline)).
Proof.
  split.
  - intros Prefix L h el pre ind. unfold MarshalIndent.
    assert (H : forall fuel,
               encode bufferWrite Prefix L fuel (mkEncoder pre ind true)
               = encode bufferWrite Prefix L fuel (mkEncoder "" ind true)).
    { induction fuel as [|fuel IH]; [reflexivity|].
      cbn [encode]. rewrite IH. reflexivity. }
    now rewrite H.
  - intros L. vm_compute. reflexivity.
Qed.

(** C7: an error of the writer is dropped when it comes from the write of
    the content.  On a writer whose fourth call fails, [Encode] of
    [<module>&lt;&gt;</module>] returns nil, and the content is missing
    from what was written. *)
Theorem Encode_drops_write_error :
  forall recursionLimit : nat,
    snd (failNth 3 (3, "<module>") "&lt;&gt;") = Some "write failed"
    /\ Encode (failNth 3) localPrefix recursionLimit 0
              (mkState moduleContentHeap newVisited (0, ""))
       = Ret None
           (mkState
              (mkHeap (elems moduleContentHeap
                         ++ [mkElement (mkStart (mkName "" "module") (Some 0)) (mkScope [])
                                       (Some "&lt;&gt;") []])
                      [[]])
              newVisited (7, "<module></module>")).
Proof.
  intros L. split; [reflexivity|]. vm_compute. reflexivity.
Qed.

(** ** The theorems at sample inputs *)

Lemma wfHeap_parentHeap : wfHeap parentHeap.
Proof. repeat constructor; cbn; lia. Defined.

Lemma wfHeap_cyclicHeap : wfHeap cyclicHeap.
Proof. repeat constructor; cbn; lia. Defined.

Lemma wfHeap_scopedHeap : wfHeap scopedHeap.
Proof. repeat constructor; cbn; lia. Defined.

Lemma diffScope_common_prefix_witness :
  exists s1 : State string,
    bind (diffScope (Some 0) 1)
         (fun scope => encodeOpenTag bufferWrite localPrefix (mkEncoder "" "" false) 1 scope
                         (size (visited (mkState scopedHeap pathA ""))))
         (mkState scopedHeap pathA "")
    = Ret None s1
    /\ sink s1 = "<b xmlns:y=" +:+ dquote +:+ "urn:y" +:+ dquote +:+ " />".
Proof.
  assert (Hle : size pathA <= 3) by (vm_compute; lia).
  assert (Hnin : 1 ∉ pathA) by (unfold pathA, newVisited; set_solver).
  assert (Hfuel : 3 + 2 <= 4 + size pathA) by (vm_compute; lia).
  apply (proj1 (proj2 (proj2 (proj2
           (diffScope_common_prefix localPrefix 3 (mkState scopedHeap newVisited "") 1 _ eq_refl))
           3 (mkEncoder "" "" false) 0 _ pathA "" []
           wfHeap_scopedHeap eq_refl eq_refl Hle Hnin Hfuel)
           (mkName "urn:y" "y") eq_refl)).
Defined.

Lemma content_of_element_with_children_is_dropped_witness :
  exists (s' : State string) (outs : list string),
    encode bufferWrite localPrefix 3 5 (mkEncoder "" "" false) 0 None
           (mkState parentHeap newVisited "")
    = Ret None s'
    /\ Forall2 (fun child out =>
                  bytesAt localPrefix 3 4 (mkEncoder "" "" false) parentHeap
                          ({[0]} ∪ newVisited) (Some 0) child
                  = Some out)
               [1] outs
    /\ sink s' = "" +:+ "<a" +:+ ">" +:+ "" +:+ concatChunks outs +:+ "</a>".
Proof.
  assert (Hle : size newVisited <= 3) by (vm_compute; lia).
  assert (Hnin : 0 ∉ newVisited) by (unfold newVisited; set_solver).
  assert (Hfuel : 3 + 2 <= 5 + size newVisited) by (vm_compute; lia).
  apply (proj2 (content_of_element_with_children_is_dropped localPrefix 3
                  parentHeap 0 _ wfHeap_parentHeap eq_refl ltac:(discriminate))
           4 (mkEncoder "" "" false) None newVisited "" None []
           Hle Hnin eq_refl eq_refl Hfuel).
Defined.

Lemma self_closing_iff_no_children_no_content_witness :
  exists h' : Heap,
    encode bufferWrite localPrefix 3 1 (mkEncoder "" "" false) 0 None
           (mkState moduleContentHeap newVisited "")
    = Ret None (mkState h' newVisited ("<module>&lt;&gt;</module>")).
Proof.
  apply (proj2 (proj2 (proj2 (proj2
           (self_closing_iff_no_children_no_content localPrefix 3 0 (mkEncoder "" "" false)
              0 None (mkState moduleContentHeap newVisited "") _ None []
              ltac:(vm_compute; lia) ltac:(vm_compute; set_solver)
              eq_refl eq_refl eq_refl)))));
    [reflexivity | cbn; lia].
Defined.

Lemma empty_content_is_self_closing_witness :
  exists h' : Heap,
    encode bufferWrite localPrefix 3 1 (mkEncoder "" "" false) 0 None
           (mkState (mkHeap [leafElement "module" None (Some "")] []) newVisited "")
    = Ret None (mkState h' newVisited "<module />").
Proof.
  apply (proj1
           (empty_content_is_self_closing localPrefix 3 0 (mkEncoder "" "" false)
              0 None (mkState (mkHeap [leafElement "module" None (Some "")] []) newVisited "")
              _ None []
              ltac:(vm_compute; lia) ltac:(vm_compute; set_solver)
              eq_refl eq_refl eq_refl eq_refl)).
  right. reflexivity.
Defined.

Lemma encode_terminates_on_cycles_and_depth_witness :
  exists (r : option error) (s' : State string),
    Encode bufferWrite localPrefix 3 0 (mkState cyclicHeap newVisited "") = Ret r s'.
Proof.
  apply (proj1 (proj2
           (encode_terminates_on_cycles_and_depth localPrefix 3 bufferWrite
              (mkEncoder "" "" false) 0 None (mkState cyclicHeap newVisited "")
              wfHeap_cyclicHeap ltac:(cbn; lia) I))).
Defined.

Lemma encoding_is_read_only_and_repeatable_witness :
  exists (out : string) (h' : Heap),
    Marshal localPrefix 3 parentHeap 0 = Ret out h'
    /\ preserved parentHeap h'
    /\ output (Marshal localPrefix 3 h' 0) = Some out.
Proof.
  apply (proj1 (encoding_is_read_only_and_repeatable localPrefix 3 parentHeap 0
                  wfHeap_parentHeap ltac:(cbn; lia))).
Defined.

(** With the recursion limit 1 and the two ancestors a and b in [visited],
    [encode] of a, which is in [visited], returns nil and writes nothing;
    so [Marshal] of the cycle a, b, a prints no marker. *)
Lemma cycle_beyond_limit_has_no_marker :
  0 ∈ pathAB
  /\ encode bufferWrite localPrefix 1 1 (mkEncoder "" "" false) 0 (Some 1)
            (mkState cyclicHeap pathAB "")
     = Ret None (mkState cyclicHeap pathAB "")
  /\ "" <> "" +:+ cycleMarker
  /\ output (Marshal localPrefix 1 cyclicHeap 0) = Some "<a><b></b></a>".
Proof.
  split; [unfold pathAB; set_solver|].
  split; [vm_compute; reflexivity|].
  split; [discriminate|].
  vm_compute. reflexivity.
Qed.

Example Marshal_cycle_within_limit :
  output (Marshal localPrefix 3 cyclicHeap 0)
  = Some "<a><b><!-- cycle detected --></b></a>".
Proof. vm_compute. reflexivity. Qed.

(** * Further properties *)

(** ** The escape codec, byte by byte *)

Lemma hasChar_append (c : ascii) (a b : string) :
  hasChar c (a +:+ b) = hasChar c a || hasChar c b.
Proof.
  induction a as [|d a IH]; [reflexivity|].
  rewrite append_cons. cbn [hasChar]. destruct (ascii_dec d c); [reflexivity|exact IH].
Qed.

Lemma Replace_char_cons (o c : ascii) (new s : string) :
  Replace (String c s) (String o "") new
  = (if ascii_dec o c then new else String c "") +:+ Replace s (String o "") new.
Proof.
  unfold Replace. cbn [replaceFrom String.prefix String.length Nat.sub].
  destruct (ascii_dec o c); [|reflexivity].
  now destruct s.
Qed.

Lemma Replace_char_app (o : ascii) (new a b : string) :
  Replace (a +:+ b) (String o "") new
  = Replace a (String o "") new +:+ Replace b (String o "") new.
Proof.
  induction a as [|c a IH]; [reflexivity|].
  rewrite append_cons, !Replace_char_cons, IH. now rewrite append_assoc.
Qed.

Lemma encodeAll_app (a b : string) : encodeAll (a +:+ b) = encodeAll a +:+ encodeAll b.
Proof.
  unfold encodeAll, vContentMappings. cbn [fold_left Decoded Encoded].
  unfold dquote. now rewrite !Replace_char_app.
Qed.

Lemma encodeAll_char (c : ascii) : encodeAll (String c "") = escapeChar c.
Proof.
  unfold encodeAll, vContentMappings, escapeChar, ampChar, ltChar, gtChar, quotChar.
  cbn [fold_left Decoded Encoded]. unfold dquote.
  rewrite (Replace_char_cons "&" c).
  destruct (ascii_dec c "&") as [->|Hamp].
  { vm_compute. reflexivity. }
  destruct (ascii_dec "&" c) as [E|_]; [congruence|].
  change (String c "" +:+ Replace "" "&" "&amp;") with (String c "").
  rewrite (Replace_char_cons "<" c).
  destruct (ascii_dec c "<") as [->|Hlt].
  { vm_compute. reflexivity. }
  destruct (ascii_dec "<" c) as [E|_]; [congruence|].
  change (String c "" +:+ Replace "" "<" "&lt;") with (String c "").
  rewrite (Replace_char_cons ">" c).
  destruct (ascii_dec c ">") as [->|Hgt].
  { vm_compute. reflexivity. }
  destruct (ascii_dec ">" c) as [E|_]; [congruence|].
  change (String c "" +:+ Replace "" ">" "&gt;") with (String c "").
  rewrite (Replace_char_cons (ascii_of_nat 34) c).
  destruct (ascii_dec c (ascii_of_nat 34)) as [->|Hq].
  { vm_compute. reflexivity. }
  destruct (ascii_dec (ascii_of_nat 34) c) as [E|_]; [congruence|].
  reflexivity.
Qed.

Lemma encodeAll_escapeChars (s : string) : encodeAll s = escapeChars s.
Proof.
  induction s as [|c s IH]; [reflexivity|].
  change (String c s) with (String c "" +:+ s).
  rewrite encodeAll_app, encodeAll_char, IH. reflexivity.
Qed.

(** X1: the encoding of a concatenation is the concatenation of the
    encodings, and the encoding of a string is made of the escapes of its
    bytes. *)
Theorem xmlEncodeString_append (a b : string) :
  fst (xmlEncodeString (a +:+ b)) = fst (xmlEncodeString a) +:+ fst (xmlEncodeString b)
  /\ fst (xmlEncodeString a) = escapeChars a.
Proof.
  cbn [xmlEncodeString fst]. split; [apply encodeAll_app | apply encodeAll_escapeChars].
Qed.

Lemma escapeChar_cases (c : ascii) :
  (c = ampChar /\ escapeChar c = "&amp;")
  \/ (c = ltChar /\ escapeChar c = "&lt;")
  \/ (c = gtChar /\ escapeChar c = "&gt;")
  \/ (c = quotChar /\ escapeChar c = "&quot;")
  \/ (plainChar c /\ escapeChar c = String c "").
Proof.
  unfold escapeChar, plainChar.
  destruct (ascii_dec c ampChar) as [->|?]; [now left|].
  destruct (ascii_dec c ltChar) as [->|?]; [right; now left|].
  destruct (ascii_dec c gtChar) as [->|?]; [right; right; now left|].
  destruct (ascii_dec c quotChar) as [->|?]; [right; right; right; now left|].
  right; right; right; right. auto.
Qed.

Lemma escapeChar_length (c : ascii) :
  1 <= String.length (escapeChar c)
  /\ (String.length (escapeChar c) = 1 -> plainChar c).
Proof.
  destruct (escapeChar_cases c) as [ [-> ->] | [ [-> ->] | [ [-> ->] | [ [-> ->] | [Hp ->] ] ] ] ];
    cbn; split; try lia; intros; try discriminate; assumption.
Qed.

Lemma escapeChars_length (s : string) :
  String.length s <= String.length (escapeChars s).
Proof.
  induction s as [|c s IH]; [reflexivity|].
  cbn [escapeChars String.length]. rewrite length_append.
  destruct (escapeChar_length c) as [H1 _]. lia.
Qed.

Lemma hasChar_false_cons (d c : ascii) (s : string) :
  hasChar d (String c s) = false <-> c <> d /\ hasChar d s = false.
Proof.
  cbn [hasChar]. destruct (ascii_dec c d) as [->|Hne].
  - split; [discriminate|]. intros [H _]. contradiction.
  - tauto.
Qed.

(** X2: the encoded string holds none of [<], [>] and the double quote. *)
Theorem xmlEncodeString_escapes_all (s : string) (d : ascii) :
  d = ltChar \/ d = gtChar \/ d = quotChar ->
  hasChar d (fst (xmlEncodeString s)) = false.
Proof.
  intros Hd. cbn [xmlEncodeString fst]. rewrite encodeAll_escapeChars.
  induction s as [|c s IH]; [reflexivity|].
  cbn [escapeChars]. rewrite hasChar_append, IH, orb_false_r.
  destruct (escapeChar_cases c) as [ [-> ->] | [ [-> ->] | [ [-> ->] | [ [-> ->] | [Hp ->] ] ] ] ];
    try (destruct Hd as [-> | [-> | ->] ]; vm_compute; reflexivity).
  apply hasChar_false_cons. split; [|reflexivity].
  destruct Hp as (? & ? & ? & ?). destruct Hd as [-> | [-> | ->] ]; assumption.
Qed.

Lemma xmlEncodeString_escapes_all_witness :
  hasChar ltChar (fst (xmlEncodeString "a<b>c")) = false.
Proof. apply (xmlEncodeString_escapes_all "a<b>c" ltChar). left. reflexivity. Defined.

Lemma plainString_cons (c : ascii) (s : string) :
  plainString (String c s) <-> plainChar c /\ plainString s.
Proof.
  unfold plainString, plainChar. rewrite !hasChar_false_cons. tauto.
Qed.

Lemma escapeChars_identity_iff (s : string) : escapeChars s = s <-> plainString s.
Proof.
  induction s as [|c s IH].
  - split; [intros _; repeat split | reflexivity].
  - rewrite plainString_cons. cbn [escapeChars]. split.
    + intros H.
      assert (Hlen : String.length (escapeChar c) = 1
                     /\ String.length (escapeChars s) = String.length s).
      { apply (f_equal String.length) in H. rewrite length_append in H. cbn in H.
        destruct (escapeChar_length c) as [H1 _].
        pose proof (escapeChars_length s). lia. }
      destruct Hlen as [Hc Hs].
      destruct (escapeChar_length c) as [_ Hplain]. specialize (Hplain Hc).
      split; [exact Hplain|]. apply IH.
      destruct (escapeChar_cases c) as [ [-> _] | [ [-> _] | [ [-> _] | [ [-> _] | [_ Hec] ] ] ] ];
        try (destruct Hplain as (? & ? & ? & ?); contradiction).
      rewrite Hec in H. rewrite append_cons in H. now injection H.
    + intros [Hplain Hs].
      destruct (escapeChar_cases c) as [ [-> _] | [ [-> _] | [ [-> _] | [ [-> _] | [_ Hec] ] ] ] ];
        try (destruct Hplain as (? & ? & ? & ?); contradiction).
      rewrite Hec, append_cons. f_equal. now apply IH.
Qed.

(** X3: encoding never shortens a string, and it returns the string itself
    exactly when the string holds none of the four escaped bytes. *)
Theorem xmlEncodeString_identity_iff_plain (s : string) :
  String.length s <= String.length (fst (xmlEncodeString s))
  /\ (fst (xmlEncodeString s) = s <-> plainString s).
Proof.
  cbn [xmlEncodeString fst]. rewrite encodeAll_escapeChars.
  split; [apply escapeChars_length | apply escapeChars_identity_iff].
Qed.

Lemma escapeChars_empty (s : string) : escapeChars s = "" -> s = "".
Proof.
  rewrite <- encodeAll_escapeChars. apply encodeAll_empty_iff.
Qed.

(** X4: two strings with the same encoding are equal. *)
Theorem xmlEncodeString_injective (s1 s2 : string) :
  fst (xmlEncodeString s1) = fst (xmlEncodeString s2) -> s1 = s2.
Proof.
  cbn [xmlEncodeString fst]. rewrite !encodeAll_escapeChars.
  revert s2. induction s1 as [|c1 s1 IH]; intros s2 H.
  - symmetry. apply escapeChars_empty. now rewrite <- H.
  - destruct s2 as [|c2 s2]; [now apply escapeChars_empty in H|].
    cbn [escapeChars] in H.
    remember (escapeChars s1) as e1 eqn:He1. remember (escapeChars s2) as e2 eqn:He2.
    assert (Hgoal : c1 = c2 /\ e1 = e2).
    { destruct (escapeChar_cases c1)
        as [ [-> Hc1] | [ [-> Hc1] | [ [-> Hc1] | [ [-> Hc1] | [Hp1 Hc1] ] ] ] ];
      destruct (escapeChar_cases c2)
        as [ [-> Hc2] | [ [-> Hc2] | [ [-> Hc2] | [ [-> Hc2] | [Hp2 Hc2] ] ] ] ];
      rewrite ?Hc1, ?Hc2 in H; rewrite ?append_cons in H;
      try discriminate H;
      try (injection H as H; split; [reflexivity | exact H]);
      try (injection H as Hc H; exfalso;
           first [ destruct Hp1 as (? & ? & ? & ?) | destruct Hp2 as (? & ? & ? & ?) ];
           unfold ampChar, ltChar, gtChar, quotChar in *; congruence).
      injection H as -> H. split; [reflexivity | exact H]. }
    destruct Hgoal as [-> He]. f_equal. apply IH. congruence.
Qed.

Lemma xmlEncodeString_injective_witness : "a&b" = "a&b".
Proof. apply (xmlEncodeString_injective "a&b" "a&b"). reflexivity. Defined.

Lemma Replace_absent (o : ascii) (old' new s : string) :
  hasChar o s = false -> Replace s (String o old') new = s.
Proof.
  unfold Replace. induction s as [|c s IH]; [reflexivity|].
  intros H. apply hasChar_false_cons in H as [Hne Hs].
  cbn [replaceFrom String.prefix].
  destruct (ascii_dec o c) as [->|_]; [contradiction|].
  f_equal. now apply IH.
Qed.

(** X5: decoding returns a string without [&] as it is. *)
Theorem xmlDecodeString_without_amp (s : string) :
  hasChar ampChar s = false -> fst (xmlDecodeString s) = s.
Proof.
  intros H. cbn [xmlDecodeString fst].
  unfold decodeAll, vContentMappings. cbn [fold_left Decoded Encoded].
  do 4 rewrite (Replace_absent "&" _ _ s H). reflexivity.
Qed.

Lemma xmlDecodeString_without_amp_witness : fst (xmlDecodeString "a<b") = "a<b".
Proof. apply (xmlDecodeString_without_amp "a<b"). reflexivity. Defined.

Lemma escapeChars_flat (s : string) : escapeChars s = flatChars escapeChar s.
Proof. induction s as [|c s IH]; [reflexivity|]. cbn. now rewrite IH. Qed.

Lemma replace_flat (old new : string) (f g : ascii -> string) :
  (forall (c : ascii) (rest : string),
      c <> ampChar ->
      replaceFrom old new 0 (f c +:+ rest) = g c +:+ replaceFrom old new 0 rest) ->
  forall s : string,
    hasChar ampChar s = false -> Replace (flatChars f s) old new = flatChars g s.
Proof.
  intros Hstep. unfold Replace. induction s as [|c s IH]; [reflexivity|].
  intros H. apply hasChar_false_cons in H as [Hne Hs].
  cbn [flatChars]. rewrite Hstep by exact Hne. now rewrite IH.
Qed.

Ltac plain_step c :=
  rewrite append_cons; change ("" +:+ ?x) with x;
  cbn [replaceFrom String.prefix];
  match goal with
  | |- context [ascii_dec ?a c] =>
      destruct (ascii_dec a c) as [E|_];
      [exfalso; unfold ampChar, ltChar, gtChar, quotChar in *; congruence | reflexivity]
  end.

Ltac decode_step :=
  let c := fresh "c" in
  let rest := fresh "rest" in
  let Hamp := fresh "Hamp" in
  intros c rest Hamp;
  unfold afterLt, afterGt;
  destruct (escapeChar_cases c)
    as [ [-> _] | [ [-> _] | [ [-> _] | [ [-> _] | [Hp Hc] ] ] ] ];
  [ contradiction
  | destruct rest; vm_compute; reflexivity
  | destruct rest; vm_compute; reflexivity
  | destruct rest; vm_compute; reflexivity
  | destruct Hp as (Ha & Hl & Hg & Hq);
    repeat match goal with
           | |- context [ascii_dec c ?a] => destruct (ascii_dec c a) as [?|_]; [contradiction|]
           end;
    rewrite ?Hc; plain_step c ].

Lemma decode_amp_pass (s : string) :
  hasChar ampChar s = false ->
  Replace (flatChars escapeChar s) "&amp;" "&" = flatChars escapeChar s.
Proof. apply replace_flat. decode_step. Qed.

Lemma decode_lt_pass (s : string) :
  hasChar ampChar s = false ->
  Replace (flatChars escapeChar s) "&lt;" "<" = flatChars afterLt s.
Proof. apply replace_flat. decode_step. Qed.

Lemma decode_gt_pass (s : string) :
  hasChar ampChar s = false ->
  Replace (flatChars afterLt s) "&gt;" ">" = flatChars afterGt s.
Proof. apply replace_flat. decode_step. Qed.

Lemma decode_quot_pass (s : string) :
  hasChar ampChar s = false ->
  Replace (flatChars afterGt s) "&quot;" dquote = flatChars (fun c => String c "") s.
Proof. apply replace_flat. decode_step. Qed.

Lemma flatChars_id (s : string) : flatChars (fun c => String c "") s = s.
Proof. induction s as [|c s IH]; [reflexivity|]. cbn. now rewrite IH. Qed.

(** X6: decoding inverts encoding on the strings without [&]. *)
Theorem xmlDecodeString_xmlEncodeString_without_amp (s : string) :
  hasChar ampChar s = false ->
  fst (xmlDecodeString (fst (xmlEncodeString s))) = s.
Proof.
  intros H. cbn [xmlDecodeString xmlEncodeString fst].
  rewrite encodeAll_escapeChars, escapeChars_flat.
  unfold decodeAll, vContentMappings. cbn [fold_left Decoded Encoded].
  rewrite decode_amp_pass, decode_lt_pass, decode_gt_pass, decode_quot_pass by exact H.
  apply flatChars_id.
Qed.

Lemma xmlDecodeString_xmlEncodeString_without_amp_witness :
  fst (xmlDecodeString (fst (xmlEncodeString "a<b>"))) = "a<b>".
Proof.
  apply (xmlDecodeString_xmlEncodeString_without_amp "a<b>"). reflexivity.
Defined.

Lemma diffNs_empty_iff_prefix (p c : list xmlName) :
  diffNs p c = [] <-> c `prefix_of` p.
Proof.
  revert c. induction p as [|x p IH]; intros c.
  - rewrite diffNs_nil_l. split.
    + intros ->. reflexivity.
    + apply prefix_nil_inv.
  - destruct c as [|y c]; cbn [diffNs].
    + split; [intros _; apply prefix_nil | reflexivity].
    + destruct (decide (y = x)) as [->|Hne].
      * rewrite IH. split.
        -- apply prefix_cons.
        -- apply prefix_cons_inv_2.
      * split; [discriminate|].
        intros H. apply prefix_cons_inv_1 in H. contradiction.
Qed.

(** X7: under a parent, [diffScope] returns the empty scope exactly when
    the child's declarations are the first ones of the parent's. *)
Theorem diffScope_empty_iff_prefix {W : Type} (s : State W) (child p : addr)
    (C P : Element) :
  elems (heap s) !! child = Some C ->
  elems (heap s) !! p = Some P ->
  exists sc : Scope,
    diffScope (Some p) child s = Ret sc s
    /\ (ns sc = [] <-> ns (ElScope C) `prefix_of` ns (ElScope P)).
Proof.
  intros HC HP. eexists. split.
  - apply (diffScope_run (Some p) child s C (Some P) HC).
    unfold parentElem. now rewrite HP.
  - cbn [scopeFor ns]. apply diffNs_empty_iff_prefix.
Qed.

Lemma diffScope_empty_iff_prefix_witness :
  exists sc : Scope,
    diffScope (Some 1) 0 (mkState scopedHeap newVisited "") = Ret sc (mkState scopedHeap newVisited "")
    /\ (ns sc = [] <-> [mkName "urn:x" "x"] `prefix_of` [mkName "urn:x" "x"; mkName "urn:y" "y"]).
Proof.
  apply (diffScope_empty_iff_prefix (mkState scopedHeap newVisited "") 0 1 _ _ eq_refl eq_refl).
Defined.

Lemma escapeChars_amp_free (s : string) :
  hasChar ampChar (escapeChars s) = false -> plainString s.
Proof.
  induction s as [|c s IH]; [intros _; repeat split|].
  cbn [escapeChars]. rewrite hasChar_append. intros H.
  apply orb_false_elim in H as [Hc Hs]. apply plainString_cons.
  split; [|now apply IH].
  destruct (escapeChar_cases c)
    as [ [_ Hec] | [ [_ Hec] | [ [_ Hec] | [ [_ Hec] | [Hp _] ] ] ] ];
    try exact Hp; rewrite Hec in Hc; discriminate Hc.
Qed.

(** X8: encoding an encoded string again returns it unchanged exactly when
    the original string holds none of the four escaped bytes. *)
Theorem xmlEncodeString_twice_iff_plain (s : string) :
  fst (xmlEncodeString (fst (xmlEncodeString s))) = fst (xmlEncodeString s)
  <-> plainString s.
Proof.
  cbn [xmlEncodeString fst]. rewrite !encodeAll_escapeChars. split.
  - intros H. apply escapeChars_identity_iff in H as (Hamp & _).
    now apply escapeChars_amp_free.
  - intros H. apply escapeChars_identity_iff in H as H'. now rewrite !H'.
Qed.

Lemma prefix_length (a b : string) :
  String.prefix a b = true -> String.length a <= String.length b.
Proof.
  revert b. induction a as [|c a IH]; intros b H; [cbn; lia|].
  destruct b as [|d b]; [discriminate H|].
  cbn [String.prefix] in H. destruct (ascii_dec c d); [|discriminate H].
  cbn [String.length]. apply IH in H. lia.
Qed.

Lemma replaceFrom_length (old new : string) :
  String.length new <= String.length old ->
  forall (s : string) (k : nat),
    String.length (replaceFrom old new k s) + Nat.min k (String.length s)
    <= String.length s.
Proof.
  intros Hlen. induction s as [|c s IH]; intros k; [cbn; lia|].
  cbn [replaceFrom]. destruct k as [|k].
  - destruct (String.prefix old (String c s)) eqn:Hp.
    + apply prefix_length in Hp. cbn [String.length] in Hp |- *.
      rewrite length_append.
      specialize (IH (String.length old - 1)). lia.
    + cbn [String.length]. specialize (IH 0). lia.
  - cbn [String.length]. specialize (IH k). lia.
Qed.

(** X9: decoding never lengthens a string. *)
Theorem xmlDecodeString_length (s : string) :
  String.length (fst (xmlDecodeString s)) <= String.length s.
Proof.
  cbn [xmlDecodeString fst]. unfold decodeAll, vContentMappings.
  cbn [fold_left Decoded Encoded]. unfold Replace.
  assert (H : forall old new t,
             String.length new <= String.length old ->
             String.length (replaceFrom old new 0 t) <= String.length t).
  { intros old new t Hl. pose proof (replaceFrom_length old new Hl t 0). lia. }
  etrans; [apply H; cbn; lia|].
  etrans; [apply H; cbn; lia|].
  etrans; [apply H; cbn; lia|].
  apply H; cbn; lia.
Qed.


Section Errors.
Context {W : Type}.
Variable Write : W -> string -> W * option error.
Variable Prefix : Scope -> xmlName -> string.
Variable recursionLimit : nat.

Lemma emitW_error (w : W) (chunks : list string) (y : error) :
  snd (emitW Write w chunks) = Some y -> fromWriter Write y.
Proof.
  revert w. induction chunks as [|c chunks IH]; intros w; cbn; [discriminate|].
  destruct (Write w c) as [w' [x|]] eqn:Hw.
  - cbn. intros [= ->]. exists w, c. now rewrite Hw.
  - apply IH.
Qed.

Lemma openTagResult_error (e : encoder) (scope : Scope) (depth : nat) (E : Element)
    (src : list xmlAttr) (s : State W) (y : error) :
  fst (openTagResult Write Prefix e scope depth E src s) = Some y -> fromWriter Write y.
Proof.
  unfold openTagResult. destruct (snd (emitW _ _ _)) as [x|] eqn:He; cbn; [|discriminate].
  intros [= ->]. eapply emitW_error. exact He.
Qed.

Lemma closeTagResult_error (e : encoder) (depth : nat) (E : Element) (s : State W)
    (y : error) :
  fst (closeTagResult Write Prefix e depth E s) = Some y -> fromWriter Write y.
Proof.
  unfold closeTagResult. destruct (snd (emitW _ _ _)) as [x|] eqn:He; cbn; [|discriminate].
  intros [= ->]. eapply emitW_error. exact He.
Qed.

Lemma leafResult_error (e : encoder) (E : Element) (depth : nat) (s : State W) (y : error) :
  fst (leafResult Write Prefix e E depth s) = Some y -> fromWriter Write y.
Proof.
  unfold leafResult. destruct (Nat.ltb 0 _); [|discriminate].
  apply closeTagResult_error.
Qed.

Lemma encodeChildren_error (fuel : nat) (e : encoder) (el : addr) (E : Element) :
  (forall (child : addr) (s s' : State W) (y : error),
      wfHeap (heap s) -> child < length (elems (heap s)) ->
      el < length (elems (heap s)) ->
      encode Write Prefix recursionLimit fuel e child (Some el) s = Ret (Some y) s' ->
      fromWriter Write y) ->
  forall (k i : nat) (s s' : State W) (y : error),
    wfHeap (heap s) -> elems (heap s) !! el = Some E ->
    i + k = length (Children E) ->
    encodeChildren (encode Write Prefix recursionLimit fuel e) el i k s = Ret (Some y) s' ->
    fromWriter Write y.
Proof.
  intros IH. induction k as [|k IHk]; intros i s s' y Hwf HE Hik Hrun.
  - discriminate Hrun.
  - cbn [encodeChildren] in Hrun.
    erewrite bind_ret_run in Hrun; [| reflexivity].
    erewrite bind_ret_run in Hrun; [| apply loadElem_run; exact HE].
    destruct (lookup_lt_is_Some_2 (Children E) i ltac:(lia)) as [child Hchild].
    rewrite Hchild in Hrun.
    assert (Hvalid : child < length (elems (heap s))).
    { destruct (wf_lookup _ _ _ Hwf HE) as [_ Hc].
      eapply (proj1 (Forall_lookup _ _) Hc); eassumption. }
    assert (Hel : el < length (elems (heap s))) by (eapply lookup_lt_Some; eassumption).
    set (t := mkState (heap s) ({[el]} ∪ visited s) (sink s)) in *.
    pose proof (encode_ok Write Prefix recursionLimit fuel e child (Some el) t Hwf Hvalid Hel)
      as Hok.
    unfold bind at 1 in Hrun.
    destruct (encode Write Prefix recursionLimit fuel e child (Some el) t)
      as [[x|] u| |] eqn:Hchildrun; try discriminate Hrun.
    + injection Hrun as <- _. eapply (IH child t u x); eassumption.
    + destruct Hok as (Hx & Hwf' & _).
      erewrite bind_ret_run in Hrun; [| reflexivity].
      eapply (IHk (S i) _ s' y); [| | |exact Hrun]; cbn [heap].
      * exact Hwf'.
      * eapply extends_lookup_elem; eassumption.
      * lia.
Qed.

Lemma encode_error (fuel : nat) :
  forall (e : encoder) (el : addr) (parent : option addr) (s s' : State W) (y : error),
    wfHeap (heap s) -> el < length (elems (heap s)) -> validParent (heap s) parent ->
    encode Write Prefix recursionLimit fuel e el parent s = Ret (Some y) s' ->
    fromWriter Write y.
Proof.
  induction fuel as [|fuel IH]; intros e el parent s s' y Hwf Hel Hpar Hrun.
  - discriminate Hrun.
  - destruct (le_lt_dec (size (visited s)) recursionLimit) as [Hle|Hgt].
    2:{ rewrite encode_over_limit in Hrun by exact Hgt. discriminate Hrun. }
    destruct (decide (el ∈ visited s)) as [Hin|Hnin].
    { rewrite encode_cycle in Hrun by assumption. discriminate Hrun. }
    destruct (lookup_lt_is_Some_2 _ _ Hel) as [E HE].
    destruct (wf_slice _ _ _ Hwf HE) as [src Hsrc].
    destruct (wf_parent _ _ Hpar) as [P HP].
    rewrite (encode_unfold Write Prefix recursionLimit fuel e el parent s E P src
               Hle Hnin HE HP Hsrc) in Hrun.
    cbv zeta in Hrun.
    destruct (openTagResult_ok Write Prefix e (scopeFor P E) (size (visited s)) el E src s
                Hwf HE) as (Hx1 & Hwf1 & Hv1).
    pose proof (openTagResult_error e (scopeFor P E) (size (visited s)) E src s) as Herr1.
    destruct (openTagResult _ _ _ _ _ _ _ _) as [[x|] s1]; cbn [fst snd] in *.
    { injection Hrun as <- _. now apply Herr1. }
    destruct (Nat.eqb (length (Children E)) 0) eqn:Hch.
    { injection Hrun as Hr _. eapply leafResult_error. exact Hr. }
    assert (HE1 : elems (heap s1) !! el = Some E) by (eapply extends_lookup_elem; eassumption).
    assert (Hnin1 : el ∉ visited s1) by now rewrite Hv1.
    pose proof (encodeChildren_ok Write recursionLimit fuel
                  (encode Write Prefix recursionLimit fuel e) el E
                  (fun child s' Hw Hc Hl =>
                     encode_ok Write Prefix recursionLimit fuel e child (Some el) s' Hw Hc Hl)
                  (length (Children E)) 0 s1 Hwf1 HE1 eq_refl Hnin1) as Hok.
    destruct (encodeChildren _ _ _ _ _) as [[x|] s2| |] eqn:Hloop; try discriminate Hrun.
    + injection Hrun as <- _.
      eapply (encodeChildren_error fuel e el E
                (fun child t t' z Hw Hc Hl Hr => IH e child (Some el) t t' z Hw Hc Hl Hr)
                (length (Children E)) 0 s1 s2 x Hwf1 HE1 eq_refl Hloop).
    + destruct Hok as (Hx2 & _).
      rewrite (encodeCloseTag_run Write Prefix e el _ s2 E) in Hrun
        by (eapply extends_lookup_elem; eassumption).
      injection Hrun as Hr _. eapply closeTagResult_error. exact Hr.
Qed.

(** X10: [Encode] of a well-formed tree does not panic, and an error it
    returns is an error that a call of [Write] returned. *)
Theorem Encode_returns_only_writer_errors (el : addr) (s : State W) :
  wfHeap (heap s) -> el < length (elems (heap s)) ->
  exists (r : option error) (s' : State W),
    Encode Write Prefix recursionLimit el s = Ret r s'
    /\ (forall y : error, r = Some y -> fromWriter Write y).
Proof.
  intros Hwf Hel.
  destruct (encode_root_returns Prefix recursionLimit Write (mkEncoder "" "" false) el
              (mkState (heap s) newVisited (sink s)) Hwf Hel eq_refl)
    as (r & s' & Hrun & _).
  exists r, s'. split; [exact Hrun|].
  intros y ->.
  exact (encode_error _ _ el None (mkState (heap s) newVisited (sink s)) s' y Hwf Hel I Hrun).
Qed.

End Errors.

Section Render.
Variable Prefix : Scope -> xmlName -> string.

Variable recursionLimit : nat.
Variable h0 : Heap.

Lemma heightT_kids (kids : list Tree) :
  Forall (fun k => heightT k <= fold_right Nat.max 0 (map heightT kids)) kids.
Proof.
  induction kids as [|k kids IH]; [constructor|].
  cbn [map fold_right]. constructor; [lia|].
  eapply Forall_impl; [exact IH|]. cbn. intros; lia.
Qed.

Lemma encodeChildren_render (fuel m : nat) (e : encoder) (p : addr) (E : Element)
    (vis : gset addr) :
  rendersAt Prefix recursionLimit h0 fuel ->
  p ∉ vis -> m <= fuel -> S (size vis) + m <= recursionLimit + 1 ->
  forall (kids : list Tree) (cs : list addr) (i : nat) (s : State string),
    extends h0 (heap s) ->
    elems (heap s) !! p = Some E ->
    visited s = vis ->
    drop i (Children E) = cs ->
    Forall2 (reprIn h0 ({[p]} ∪ vis)) cs kids ->
    Forall (fun k => heightT k <= m) kids ->
    exists s' : State string,
      encodeChildren (encode bufferWrite Prefix recursionLimit fuel e) p i (length cs) s
      = Ret None s'
      /\ sink s' = sink s +:+ concatChunks (map (render Prefix e (S (size vis)) (Some E)) kids)
      /\ extends (heap s) (heap s')
      /\ visited s' = vis.
Proof.
  intros IH Hnin Hm Hdepth.
  induction kids as [|k kids IHk]; intros cs i s Hx HE Hv Hdrop Hrepr Hh.
  - apply Forall2_nil_inv_r in Hrepr. subst cs. rewrite Hrepr. cbn.
    exists s. split; [reflexivity|]. rewrite append_nil_r.
    split; [reflexivity|]. split; [apply extends_refl|exact Hv].
  - apply Forall2_cons_inv_r in Hrepr as (c & cs' & Hc & Hcs & Hcs_eq).
    rewrite Hcs_eq in Hdrop |- *. cbn [length encodeChildren].
    erewrite bind_ret_run; [| reflexivity].
    erewrite bind_ret_run; [| apply loadElem_run; exact HE].
    assert (Hi : Children E !! i = Some c).
    { rewrite <- (Nat.add_0_r i), <- lookup_drop, Hdrop. reflexivity. }
    rewrite Hi.
    apply Forall_cons in Hh as [Hk Hh].
    set (t := mkState (heap s) ({[p]} ∪ visited s) (sink s)).
    assert (Hsz : size ({[p]} ∪ vis) = S (size vis)).
    { rewrite size_union by set_solver. now rewrite size_singleton. }
    destruct (IH e c (Some p) (Some E) t k) as (u & Hrun & Hsink & Hxu & Hvu).
    + exact Hx.
    + cbn [visited t]. now rewrite Hv.
    + unfold parentElem. cbn [heap t]. now rewrite HE.
    + cbn [visited t]. rewrite Hv, Hsz. lia.
    + lia.
    + unfold bind at 1. fold t. rewrite Hrun.
      erewrite bind_ret_run; [| reflexivity].
      cbn [visited t] in Hvu, Hsink. rewrite Hv in Hvu, Hsink. rewrite Hsz in Hsink.
      destruct (IHk cs' (S i) (mkState (heap u) (visited u ∖ {[p]}) (sink u)))
        as (s' & Hrun' & Hsink' & Hx' & Hv').
      * cbn [heap]. eapply extends_trans; [exact Hx | exact Hxu].
      * cbn [heap]. eapply extends_lookup_elem; [exact Hxu | exact HE].
      * cbn [visited]. rewrite Hvu. set_solver.
      * replace (S i) with (i + 1) by lia. rewrite <- drop_drop, Hdrop. reflexivity.
      * exact Hcs.
      * exact Hh.
      * exists s'. split; [exact Hrun'|]. cbn [sink heap] in Hsink', Hx'.
        split; [|split; [eapply extends_trans; [exact Hxu | exact Hx'] | exact Hv']].
        rewrite Hsink', Hsink. cbn [map]. unfold concatChunks. cbn [fold_right].
        now rewrite append_assoc.
Qed.

Lemma encode_render (fuel : nat) : rendersAt Prefix recursionLimit h0 fuel.
Proof.
  induction fuel as [|fuel IH]; intros e p parent P s t Hx Hrepr HP Hdepth Hfuel.
  - destruct t. cbn in Hfuel. lia.
  - inversion Hrepr as [vis p' E src kids Hnin HE0 Hsrc0 Hkids Hvis Hp Ht]. subst p' t vis.
    assert (HE : elems (heap s) !! p = Some E) by (eapply extends_lookup_elem; eassumption).
    assert (Hsrc : sliceAttrs (arrays (heap s)) (Attr (StartElement E)) = Some src).
    { destruct (Attr (StartElement E)) as [a|]; [|exact Hsrc0].
      cbn in *. eapply extends_lookup_array; eassumption. }
    cbn [heightT] in Hdepth, Hfuel.
    rewrite (encode_unfold bufferWrite Prefix recursionLimit fuel e p parent s E P src
               ltac:(lia) Hnin HE HP Hsrc).
    cbv zeta. rewrite openTagResult_buffer. cbn [fst snd render].
    apply Forall2_length in Hkids as Hlen.
    destruct (Nat.eqb (length (Children E)) 0) eqn:Hch.
    + unfold leafResult. cbn [heap visited sink].
      destruct (Nat.ltb 0 (lenBytes (Content E))).
      * rewrite closeTagResult_buffer. cbn [fst snd heap visited sink bufferWrite].
        eexists. split; [reflexivity|]. cbn [sink heap visited].
        split; [now rewrite !append_assoc|].
        split; [|reflexivity]. split; cbn; now apply prefix_app_r.
      * eexists. split; [reflexivity|]. cbn [sink heap visited].
        split; [now rewrite append_nil_r|].
        split; [|reflexivity]. split; cbn; now apply prefix_app_r.
    + set (s1 := mkState _ (visited s) _).
      assert (Hx1 : extends (heap s) (heap s1)) by (split; cbn; now apply prefix_app_r).
      destruct (encodeChildren_render fuel (fold_right Nat.max 0 (map heightT kids)) e p E
                  (visited s) IH Hnin ltac:(lia) ltac:(lia) kids (Children E) 0 s1)
        as (s2 & Hrun & Hsink & Hx2 & Hv2).
      * eapply extends_trans; eassumption.
      * eapply extends_lookup_elem; eassumption.
      * reflexivity.
      * reflexivity.
      * exact Hkids.
      * apply heightT_kids.
      * rewrite Hrun.
        rewrite (encodeCloseTag_run bufferWrite Prefix e p _ s2 E)
          by (eapply extends_lookup_elem; [exact Hx2|];
              eapply extends_lookup_elem; eassumption).
        rewrite closeTagResult_buffer. cbn [fst snd].
        eexists. split; [reflexivity|]. cbn [sink heap visited].
        split; [|split; [eapply extends_trans; eassumption | exact Hv2]].
        rewrite Hsink, Hv2. unfold s1. cbn [sink]. now rewrite !append_assoc.
Qed.

End Render.

Section Extras.
Variable Prefix : Scope -> xmlName -> string.
Variable recursionLimit : nat.

(** X11: for a tree without cycles that is not deeper than the recursion
    limit allows, [Marshal] and [MarshalIndent] return the bytes of the
    tree: the open tag, then the escaped content of a childless element
    or the bytes of the children in order, then the close tag. *)
Theorem Marshal_renders_tree (h : Heap) (root : addr) (t : Tree) :
  reprIn h newVisited root t ->
  heightT t <= recursionLimit + 1 ->
  output (Marshal Prefix recursionLimit h root)
  = Some (render Prefix (mkEncoder "" "" false) 0 None t)
  /\ (forall pre ind : string,
        output (MarshalIndent Prefix recursionLimit h root pre ind)
        = Some (render Prefix (mkEncoder pre ind true) 0 None t)).
Proof.
  intros Hrepr Hh.
  assert (Hrun : forall e,
             exists s', encode bufferWrite Prefix recursionLimit (encodeFuel recursionLimit)
                          e root None (mkState h newVisited "") = Ret None s'
                        /\ sink s' = render Prefix e 0 None t).
  { intros e.
    destruct (encode_render Prefix recursionLimit h (encodeFuel recursionLimit) e root None None
                (mkState h newVisited "") t (extends_refl h) Hrepr eq_refl)
      as (s' & Hrun & Hsink & _).
    - cbn [visited]. unfold newVisited. rewrite size_empty. lia.
    - unfold encodeFuel. lia.
    - exists s'. split; [exact Hrun|]. rewrite Hsink. cbn [sink visited].
      unfold newVisited. now rewrite size_empty. }
  split.
  - destruct (Hrun (mkEncoder "" "" false)) as (s' & Hr & Hs).
    unfold Marshal, Encode. cbn [heap sink]. rewrite Hr. cbn. now rewrite Hs.
  - intros pre ind. destruct (Hrun (mkEncoder pre ind true)) as (s' & Hr & Hs).
    unfold MarshalIndent. rewrite Hr. cbn. now rewrite Hs.
Qed.

(** X12: on a well-formed heap, with enough fuel for the depth that is
    left, [encode] returns; the heap it leaves is well formed and holds
    every cell of the one it started from, and when it returns nil the
    [visited] map is the one it was called with. *)
Theorem encode_restores_visited {W : Type} (Write : W -> string -> W * option error)
    (fuel : nat) (e : encoder) (el : addr) (parent : option addr) (s : State W) :
  wfHeap (heap s) -> el < length (elems (heap s)) -> validParent (heap s) parent ->
  0 < fuel -> recursionLimit + 2 <= fuel + size (visited s) ->
  exists (r : option error) (s' : State W),
    encode Write Prefix recursionLimit fuel e el parent s = Ret r s'
    /\ extends (heap s) (heap s') /\ wfHeap (heap s')
    /\ (r = None -> visited s' = visited s).
Proof.
  intros Hwf Hel Hpar Hpos Hfuel.
  pose proof (encode_ok Write Prefix recursionLimit fuel e el parent s Hwf Hel Hpar) as Hok.
  destruct (encode _ _ _ _ _ _ _ _) as [r s'| |]; cbn in Hok.
  - exists r, s'. destruct Hok as (Hext & Hwf' & Hv & _). auto.
  - contradiction.
  - lia.
Qed.

(** X13: [Encode] of a pointer that holds no element panics, in [diffScope],
    and so do [Marshal] and [MarshalIndent]. *)
Theorem Encode_nil_pointer_panics {W : Type} (Write : W -> string -> W * option error)
    (el : addr) (s : State W) :
  elems (heap s) !! el = None ->
  Encode Write Prefix recursionLimit el s = Panic
  /\ Marshal Prefix recursionLimit (heap s) el = Panic
  /\ (forall pre ind : string,
        MarshalIndent Prefix recursionLimit (heap s) el pre ind = Panic).
Proof.
  intros Hnone.
  assert (H : forall (V : Type) (Wr : V -> string -> V * option error) (e : encoder) (w : V),
             encode Wr Prefix recursionLimit (encodeFuel recursionLimit) e el None
                    (mkState (heap s) newVisited w) = Panic).
  { intros V Wr e w. unfold encodeFuel. cbn [encode].
    unfold bind at 1. unfold lenVisited at 1. cbn [visited].
    unfold newVisited at 1. rewrite size_empty.
    replace (Nat.ltb recursionLimit 0) with false by (symmetry; apply Nat.ltb_ge; lia).
    unfold bind at 1. unfold isVisited. cbn [visited].
    rewrite bool_decide_eq_false_2 by (unfold newVisited; set_solver).
    unfold bind at 1. unfold diffScope, bind, loadElem. cbn [heap]. now rewrite Hnone. }
  split; [|split].
  - unfold Encode. apply H.
  - unfold Marshal, Encode. cbn [heap sink]. now rewrite H.
  - intros pre ind. unfold MarshalIndent. now rewrite H.
Qed.

Lemma self_closing_tail (a f l : string) :
  a +:+ f +:+ " />" +:+ l = (a +:+ f +:+ " /") +:+ ">" +:+ l.
Proof. now rewrite !append_assoc. Qed.

Lemma content_tail (a f c n l : string) :
  a +:+ f +:+ ">" +:+ c +:+ "</" +:+ n +:+ ">" +:+ l
  = (a +:+ f +:+ ">" +:+ c +:+ "</" +:+ n) +:+ ">" +:+ l.
Proof. now rewrite !append_assoc. Qed.

Lemma closeTag_tail (a : string) (e : encoder) (depth : nat) (E : Element) :
  a +:+ closeTagBytes Prefix e depth E
  = (a +:+ (if pretty e && negb (Nat.eqb (length (Children E)) 0)
            then repeatString (indent e) depth else "")
       +:+ "</" +:+ Prefix (ElScope E) (Name (StartElement E)))
    +:+ ">" +:+ lineEnd e.
Proof.
  unfold closeTagBytes, endChunks, concatChunks, lineEnd. cbn [fold_right].
  rewrite !append_assoc. reflexivity.
Qed.

(** X14: the bytes [Marshal] returns for a well-formed tree end with [>], and
    those [MarshalIndent] returns end with [>] and a newline. *)
Theorem Marshal_ends_with_tag_close (h : Heap) (el : addr) :
  wfHeap h -> el < length (elems h) ->
  (exists (body : string) (h' : Heap),
      Marshal Prefix recursionLimit h el = Ret (body +:+ ">") h')
  /\ (forall pre ind : string,
        exists (body : string) (h' : Heap),
          MarshalIndent Prefix recursionLimit h el pre ind
          = Ret (body +:+ ">" +:+ newline) h').
Proof.
  intros Hwf Hel.
  assert (Hrun : forall e,
             exists body s',
               encode bufferWrite Prefix recursionLimit (encodeFuel recursionLimit)
                      e el None (mkState h newVisited "") = Ret None s'
               /\ sink s' = body +:+ ">" +:+ lineEnd e).
  { intros e.
    destruct (encode_root_returns Prefix recursionLimit bufferWrite e el
                (mkState h newVisited "") Hwf Hel eq_refl)
      as (r & s' & Hrun & _ & _ & Hnf).
    rewrite (Hnf bufferWrite_never) in Hrun.
    destruct (lookup_lt_is_Some_2 _ _ Hel) as [E HE].
    destruct (wf_slice _ _ _ Hwf HE) as [src Hsrc].
    assert (Hle : size (visited (mkState h newVisited "")) <= recursionLimit)
      by (cbn; unfold newVisited; rewrite size_empty; lia).
    assert (Hnin : el ∉ visited (mkState h newVisited ""))
      by (cbn; unfold newVisited; set_solver).
    unfold encodeFuel in *.
    destruct (Nat.eqb (length (Children E)) 0) eqn:Hch.
    - apply Nat.eqb_eq, nil_length_inv in Hch.
      destruct (leaf_forms Prefix recursionLimit (S recursionLimit) e el None
                  (mkState h newVisited "") E None src Hle Hnin HE eq_refl Hsrc Hch)
        as [Hself Hcont].
      destruct (Nat.eq_dec (lenBytes (Content E)) 0) as [Hz|Hnz].
      + destruct (Hself Hz) as [h' Hrun'].
        rewrite self_closing_tail in Hrun'.
        eexists _, _. split; [exact Hrun' | reflexivity].
      + destruct (Hcont ltac:(lia)) as [h' Hrun'].
        rewrite content_tail in Hrun'.
        eexists _, _. split; [exact Hrun' | reflexivity].
    - assert (Hne : Children E <> []) by (intros H0; rewrite H0 in Hch; discriminate).
      rewrite (encode_parent_buffer Prefix recursionLimit (S recursionLimit) e el None
                 (mkState h newVisited "") E None src Hwf Hle Hnin HE eq_refl Hsrc Hne)
        in Hrun |- *.
      destruct (encodeChildren _ _ _ _ _) as [[y|] s2| |]; try discriminate Hrun.
      rewrite closeTag_tail.
      eexists _, _. split; reflexivity. }
  split.
  - destruct (Hrun (mkEncoder "" "" false)) as (body & s' & Hr & Hs).
    exists body, (heap s'). unfold Marshal, Encode. cbn [heap sink]. rewrite Hr, Hs.
    cbn. now rewrite append_nil_r.
  - intros pre ind. destruct (Hrun (mkEncoder pre ind true)) as (body & s' & Hr & Hs).
    exists body, (heap s'). unfold MarshalIndent. now rewrite Hr, Hs.
Qed.

End Extras.

Lemma reprIn_parentHeap : reprIn parentHeap newVisited 0 parentTree.
Proof.
  unfold parentTree, newVisited.
  apply reprNode; [set_solver | reflexivity | reflexivity |].
  constructor; [|constructor].
  apply reprNode; [set_solver | reflexivity | reflexivity | constructor].
Defined.

Lemma Marshal_renders_tree_witness :
  output (Marshal localPrefix 3 parentHeap 0) = Some "<a><b /></a>".
Proof.
  apply (proj1 (Marshal_renders_tree localPrefix 3 parentHeap 0 parentTree
                  reprIn_parentHeap ltac:(cbn; lia))).
Defined.

Lemma encode_restores_visited_witness :
  exists (r : option error) (s' : State string),
    encode bufferWrite localPrefix 3 5 (mkEncoder "" "" false) 0 None
           (mkState cyclicHeap newVisited "") = Ret r s'
    /\ extends cyclicHeap (heap s') /\ wfHeap (heap s')
    /\ (r = None -> visited s' = newVisited).
Proof.
  apply (encode_restores_visited localPrefix 3 bufferWrite 5 (mkEncoder "" "" false) 0 None
           (mkState cyclicHeap newVisited "") wfHeap_cyclicHeap ltac:(cbn; lia) I
           ltac:(lia) ltac:(unfold newVisited; cbn; rewrite size_empty; lia)).
Defined.

Lemma Encode_nil_pointer_panics_witness :
  Marshal localPrefix 3 moduleEmptyHeap 1 = Panic.
Proof.
  apply (proj1 (proj2 (Encode_nil_pointer_panics localPrefix 3 bufferWrite 1
                         (mkState moduleEmptyHeap newVisited "") eq_refl))).
Defined.

Lemma Marshal_ends_with_tag_close_witness :
  exists (body : string) (h' : Heap),
    Marshal localPrefix 3 parentHeap 0 = Ret (body +:+ ">") h'.
Proof.
  apply (proj1 (Marshal_ends_with_tag_close localPrefix 3 parentHeap 0
                  wfHeap_parentHeap ltac:(cbn; lia))).
Defined.

Lemma Encode_returns_only_writer_errors_witness :
  exists (r : option error) (s' : State (nat * string)),
    Encode (failNth 0) localPrefix 3 0 (mkState parentHeap newVisited (0, "")) = Ret r s'
    /\ (forall y : error, r = Some y -> fromWriter (failNth 0) y).
Proof.
  apply (Encode_returns_only_writer_errors (failNth 0) localPrefix 3 0
           (mkState parentHeap newVisited (0, "")) wfHeap_parentHeap ltac:(cbn; lia)).
Defined.
